(** * Pushdown of filters, projections and indexes: a shallow embedding

    The analyzer rule [pushdown] of the SQL engine, its field-index fixup,
    the [releaser] node with its [releaseIter] row iterator, and the
    [UnresolvedTable] placeholder node, together with the properties the
    design document states about them. *)

From Stdlib Require Import ZArith Lia.
From stdpp Require Import base option list strings gmap.

Open Scope string_scope.
Open Scope list_scope.

(** ** Errors and fallible results *)

(** The error kinds the rule can see.  [ErrFieldMissing] and
    [ErrUnresolvedTable] are the two kinds the sources create; [EOF] is the
    end-of-rows error of a row iterator; [ErrOther] stands for any error of
    a collaborator. *)
Inductive error : Type :=
| ErrFieldMissing (name : string)
| ErrUnresolvedTable
| EOF
| ErrOther (msg : string).

(** [ErrFieldMissing.Is(err)] *)
Definition ErrFieldMissing_Is (err : error) : bool :=
  match err with
  | ErrFieldMissing _ => true
  | _ => false
  end.

(** A Go pair [(value, error)] in which exactly one side is set. *)
Inductive result (A : Type) : Type :=
| Ok (a : A)
| Err (e : error).
Arguments Ok {A} a.
Arguments Err {A} e.

Definition isErr {A} (r : result A) : bool :=
  match r with
  | Ok _ => false
  | Err _ => true
  end.

(** ** Schemas and expressions *)

Inductive SqlType : Type := Int64 | Text | Boolean.

(** [sql.Column]: name, declared type, nullability and source table. *)
Record Column : Type := mkColumn {
  Name : string;
  Type_ : SqlType;
  Nullable : bool;
  Source : string
}.

(** [sql.Schema] *)
Abbreviation Schema := (list Column).

(** Modelled from the spec: the expression variants (the expression package
    is not part of the sources at hand): a field reference carrying a
    positional index, a declared type, a source-table tag, a column name and
    nullability; literals; logical and/or/not; comparisons. *)
Inductive Expression : Type :=
| GetField (fieldIndex : nat) (fieldType : SqlType) (table name : string)
           (nullable : bool)
| Literal (value : Z) (fieldType : SqlType)
| And (left right : Expression)
| Or (left right : Expression)
| Not (child : Expression)
| Equals (left right : Expression)
| GreaterThan (left right : Expression).

(** [reflect.DeepEqual] on expressions is structural equality. *)
Definition SqlType_eq_dec (a b : SqlType) : {a = b} + {a <> b}.
Proof. decide equality. Defined.

Definition Expression_eq_dec (a b : Expression) : {a = b} + {a <> b}.
Proof.
  decide equality;
    try apply String.string_dec; try apply Bool.bool_dec;
    try apply SqlType_eq_dec; try apply Nat.eq_dec; try apply Z.eq_dec.
Defined.

Definition DeepEqual (a b : Expression) : bool :=
  if Expression_eq_dec a b then true else false.

(** Modelled from the spec: the bottom-up transform of an expression (the
    [TransformUp] methods of the expression package are not part of the
    sources at hand): every child is transformed first, left to right, the
    first failure is returned at once, the expression is rebuilt around the
    transformed children and [f] is applied to the rebuilt expression. *)
Fixpoint Expression_TransformUp
    (f : Expression -> result Expression) (e : Expression)
    : result Expression :=
  let binary mk l r :=
    match Expression_TransformUp f l with
    | Err err => Err err
    | Ok l' =>
        match Expression_TransformUp f r with
        | Err err => Err err
        | Ok r' => f (mk l' r')
        end
    end in
  match e with
  | GetField i ty t n nl => f (GetField i ty t n nl)
  | Literal v ty => f (Literal v ty)
  | And l r => binary And l r
  | Or l r => binary Or l r
  | Not c =>
      match Expression_TransformUp f c with
      | Err err => Err err
      | Ok c' => f (Not c')
      end
  | Equals l r => binary Equals l r
  | GreaterThan l r => binary GreaterThan l r
  end.

(** ** Field-index fixup *)

(** The loop [for i, col := range schema] of [fixFieldIndexes]: the index
    of the first column, counting from [i], whose name and source are those
    of the field reference. *)
Fixpoint findColumn (schema : Schema) (i : nat) (name table : string)
    : option nat :=
  match schema with
  | [] => None
  | col :: rest =>
      if bool_decide (name = Name col) && bool_decide (table = Source col)
      then Some i
      else findColumn rest (S i) name table
  end.

(** The function handed to [TransformUp] by [fixFieldIndexes]. *)
Definition fixField (schema : Schema) (e : Expression) : result Expression :=
  match e with
  | GetField _ ty t n nl =>
      match findColumn schema 0 n t with
      | Some i => Ok (GetField i ty t n nl)
      | None => Err (ErrFieldMissing n)
      end
  | _ => Ok e
  end.

Definition fixFieldIndexes (schema : Schema) (exp : Expression)
    : result Expression :=
  Expression_TransformUp (fixField schema) exp.

(** [fixFieldIndexesOnExpressions]: the first failure discards the partial
    result. *)
Fixpoint fixFieldIndexesOnExpressions
    (schema : Schema) (expressions : list Expression)
    : result (list Expression) :=
  match expressions with
  | [] => Ok []
  | e :: rest =>
      match fixFieldIndexes schema e with
      | Err err => Err err
      | Ok e' =>
          match fixFieldIndexesOnExpressions schema rest with
          | Err err => Err err
          | Ok rest' => Ok (e' :: rest')
          end
      end
  end.

(** ** Tables and their optional capabilities *)

(** [sql.Index]: an index handle, borrowed from the catalog. *)
Definition Index : Type := string.

(** [sql.IndexLookup]: an opaque lookup descriptor. *)
Definition IndexLookup : Type := nat.

(** The value the index assignment step yields for one table: the lookup
    and the handles that back it. *)
Record indexLookup : Type := mkIndexLookup {
  lookup_ : IndexLookup;
  indexes : list Index
}.

(** [sql.Table] with the three optional capabilities [sql.FilteredTable],
    [sql.ProjectedTable] and [sql.IndexableTable].  The type assertion
    [table.(sql.FilteredTable)] is [isFilteredTable table], and likewise for
    the other two; the methods of a capability are only called on a table
    that has it. *)
Class Table (T : Type) : Type := {
  TableName : T -> string;
  TableSchema : T -> Schema;
  isFilteredTable : T -> bool;
  HandledFilters : T -> list Expression -> list Expression;
  WithFilters : T -> list Expression -> T;
  isProjectedTable : T -> bool;
  WithProjection : T -> list string -> T;
  isIndexableTable : T -> bool;
  WithIndexLookup : T -> IndexLookup -> T
}.

(** ** Plan nodes *)

(** The node kinds the rule names, and a projection as the plain
    expression-bearing node with one child.  [Releaser child release] is
    [&releaser{child, release}]: the release closure of [pushdown] releases
    the handles of [queryIndexes], so it is kept as that list. *)
Inductive Node (T : Type) : Type :=
| ResolvedTable (table : T)
| UnresolvedTable (name : string)
| Filter (expression : Expression) (child : Node T)
| Project (projections : list Expression) (child : Node T)
| InnerJoin (left right : Node T) (cond : Expression)
| InsertInto (left right : Node T)
| CreateIndex (name : string) (table : Node T) (exprs : list Expression)
| Releaser (child : Node T) (release : list Index).
Arguments ResolvedTable {T} table.
Arguments UnresolvedTable {T} name.
Arguments Filter {T} expression child.
Arguments Project {T} projections child.
Arguments InnerJoin {T} left right cond.
Arguments InsertInto {T} left right.
Arguments CreateIndex {T} name table exprs.
Arguments Releaser {T} child release.

(** The methods of [*UnresolvedTable], on the name it carries. *)
Module UnresolvedTableNode.

Definition Resolved (name : string) : bool := false.

Definition Children {T} (name : string) : list (Node T) := [].

Definition Schema (name : string) : Schema := [].

(** [RowIter] never yields a row sequence: the result carries no iterator
    type at all, only the error. *)
Definition RowIter {Ctx Iter : Type} (name : string) (ctx : Ctx)
    : result Iter :=
  Err ErrUnresolvedTable.

End UnresolvedTableNode.

Section Plan.

Context {T : Type} `{Table T}.

(** Modelled from the spec: the column descriptor of a projected
    expression (the plan package is not part of the sources at hand): a
    field reference gives its name, table tag, type and nullability; any
    other expression an anonymous boolean column. *)
Definition ExpressionToColumn (e : Expression) : Column :=
  match e with
  | GetField _ ty t n nl => mkColumn n ty nl t
  | Literal _ ty => mkColumn "" ty false ""
  | _ => mkColumn "" Boolean false ""
  end.

(** [Schema()].  The cases of [UnresolvedTable] and [releaser] are in the
    sources.  Modelled from the spec: the others (a table node has its
    table's schema, a filter its child's, a join the columns of the left
    child followed by those of the right). *)
Fixpoint NodeSchema (n : Node T) : Schema :=
  match n with
  | ResolvedTable t => TableSchema t
  | UnresolvedTable name => UnresolvedTableNode.Schema name
  | Filter _ c => NodeSchema c
  | Project es _ => map ExpressionToColumn es
  | InnerJoin l r _ => NodeSchema l ++ NodeSchema r
  | InsertInto _ _ => []
  | CreateIndex _ _ _ => []
  | Releaser c _ => NodeSchema c
  end.

(** [Children()] *)
Definition Children (n : Node T) : list (Node T) :=
  match n with
  | ResolvedTable _ => []
  | UnresolvedTable name => UnresolvedTableNode.Children name
  | Filter _ c => [c]
  | Project _ c => [c]
  | InnerJoin l r _ => [l; r]
  | InsertInto l r => [l; r]
  | CreateIndex _ t _ => [t]
  | Releaser c _ => [c]
  end.

(** [Resolved()].  The cases of [UnresolvedTable] and [releaser] are in
    the sources.  Modelled from the spec: the others (true once no
    unresolved placeholder remains beneath the node). *)
Fixpoint Resolved (n : Node T) : bool :=
  match n with
  | ResolvedTable _ => true
  | UnresolvedTable name => UnresolvedTableNode.Resolved name
  | Filter _ c => Resolved c
  | Project _ c => Resolved c
  | InnerJoin l r _ => Resolved l && Resolved r
  | InsertInto l r => Resolved l && Resolved r
  | CreateIndex _ t _ => Resolved t
  | Releaser c _ => Resolved c
  end.

(** The type switch [case *plan.InsertInto, *plan.CreateIndex]. *)
Definition isInsertOrCreateIndex (n : Node T) : bool :=
  match n with
  | InsertInto _ _ | CreateIndex _ _ _ => true
  | _ => false
  end.

End Plan.

(** ** The two read-only collections *)

(** Modelled from the spec: the expressions an inspection of one expression
    visits (the expression package is not part of the sources at hand): the
    expression itself, then its children from left to right. *)
Fixpoint walkExpression (e : Expression) : list Expression :=
  e ::
  match e with
  | GetField _ _ _ _ _ | Literal _ _ => []
  | Not c => walkExpression c
  | And l r | Or l r | Equals l r | GreaterThan l r =>
      walkExpression l ++ walkExpression r
  end.

(** The (table, column) pairs of the field references of an expression. *)
Definition fieldRefs (e : Expression) : list (string * string) :=
  flat_map
    (fun x => match x with GetField _ _ t n _ => [(t, n)] | _ => [] end)
    (walkExpression e).

Section Collect.

Context {T : Type} `{Table T}.

(** Modelled from the spec: the expressions [plan.InspectExpressions]
    hands to its callback while the callback answers true (the plan
    package is not part of the sources at hand): a single traversal of all
    expressions in the tree, a node before its children. *)
Fixpoint InspectExpressions (n : Node T) : list Expression :=
  match n with
  | ResolvedTable _ | UnresolvedTable _ => []
  | Filter e c => walkExpression e ++ InspectExpressions c
  | Project es c => flat_map walkExpression es ++ InspectExpressions c
  | InnerJoin l r cond =>
      walkExpression cond ++ InspectExpressions l ++ InspectExpressions r
  | InsertInto l r => InspectExpressions l ++ InspectExpressions r
  | CreateIndex _ t es => flat_map walkExpression es ++ InspectExpressions t
  | Releaser c _ => InspectExpressions c
  end.

(** Modelled from the spec: the nodes [plan.Inspect] visits, a node before
    its children. *)
Fixpoint Inspect (n : Node T) : list (Node T) :=
  n ::
  match n with
  | ResolvedTable _ | UnresolvedTable _ => []
  | Filter _ c | Project _ c | CreateIndex _ c _ | Releaser c _ => Inspect c
  | InnerJoin l r _ | InsertInto l r => Inspect l ++ Inspect r
  end.

End Collect.

(** The three maps the first callback of [pushdown] fills. *)
Record columnUsage : Type := mkColumnUsage {
  tableFields : gset (string * string);
  fieldsByTable : gmap string (list string);
  exprsByTable : gmap string (list Expression)
}.

Definition noColumns : columnUsage := mkColumnUsage ∅ ∅ ∅.

(** The callback handed to [plan.InspectExpressions]. *)
Definition recordColumn (u : columnUsage) (e : Expression) : columnUsage :=
  match e with
  | GetField _ _ t n _ =>
      if bool_decide ((t, n) ∈ tableFields u) then u
      else
        mkColumnUsage
          ({[ (t, n) ]} ∪ tableFields u)
          (<[ t := (fieldsByTable u !!! t) ++ [n] ]> (fieldsByTable u))
          (<[ t := (exprsByTable u !!! t) ++ [e] ]> (exprsByTable u))
  | _ => u
  end.

(** The first step of [pushdown], on the expressions in the order in which
    the inspection visits them. *)
Definition collectColumns (visited : list Expression) : columnUsage :=
  foldl recordColumn noColumns visited.

(** Modelled from the spec: [splitExpression] (not part of the sources at
    hand): a predicate built from conjunction is split into its maximal list
    of non-conjunctive conjuncts; any other predicate is a one-element
    list. *)
Fixpoint splitExpression (e : Expression) : list Expression :=
  match e with
  | And l r => splitExpression l ++ splitExpression r
  | _ => [e]
  end.

(** The distinct table tags an expression mentions. *)
Definition tablesOf (e : Expression) : list string :=
  remove_dups (map fst (fieldRefs e)).

(** Modelled from the spec: [exprToTableFilters] (not part of the sources at
    hand): the conjuncts of a predicate that mention exactly one table,
    grouped by that table; a conjunct that mentions more than one table is
    in no group. *)
Definition exprToTableFilters (e : Expression)
    : gmap string (list Expression) :=
  foldl
    (fun m c =>
       match tablesOf c with
       | [t] => <[ t := (m !!! t) ++ [c] ]> m
       | _ => m
       end)
    ∅ (splitExpression e).

(** Modelled from the spec: [filters.merge] (not part of the sources at
    hand): the sequences of the second map are appended, table by table, to
    those of the first. *)
Definition merge (f f2 : gmap string (list Expression))
    : gmap string (list Expression) :=
  union_with (fun a b => Some (a ++ b)) f f2.

(** The second step of [pushdown]. *)
Definition collectFilters {T} (visited : list (Node T))
    : gmap string (list Expression) :=
  foldl
    (fun filters node =>
       match node with
       | Filter e _ => merge filters (exprToTableFilters e)
       | _ => filters
       end)
    ∅ visited.

(** Modelled from the spec: [getUnhandledFilters] (not part of the sources
    at hand): the conjuncts that are not in the handled set, in order. *)
Definition getUnhandledFilters (all handled : list Expression)
    : list Expression :=
  filter (fun f => ¬ Is_true (existsb (DeepEqual f) handled)) all.

(** Modelled from the spec: [expression.JoinAnd] on a non-empty list (not
    part of the sources at hand): the expressions re-joined by
    conjunction. *)
Definition JoinAnd (first : Expression) (rest : list Expression)
    : Expression :=
  foldl And first rest.

(** ** The rewrite *)

(** The two variables the transform closure of [pushdown] captures and
    appends to. *)
Record pushdownState : Type := mkState {
  handledFilters : list Expression;
  queryIndexes : list Index
}.

(** A step of the rewrite: it reads and updates the captured variables and
    yields a node or an error.  An error does not undo the updates made
    before it. *)
Definition Rewrite (A : Type) : Type :=
  pushdownState -> result A * pushdownState.

Definition ret {A} (a : A) : Rewrite A := fun st => (Ok a, st).

Definition bind {A B} (m : Rewrite A) (k : A -> Rewrite B) : Rewrite B :=
  fun st =>
    match m st with
    | (Ok a, st') => k a st'
    | (Err err, st') => (Err err, st')
    end.

Notation "'let*' x := m 'in' k" := (bind m (fun x => k))
  (at level 10, x name, m at level 100, k at level 200).

(** [transformExpressionsUp]: each expression of a node is transformed
    bottom-up, in order; the first failure ends it. *)
Fixpoint transformExpressionsUp
    (f : Expression -> result Expression) (es : list Expression)
    : result (list Expression) :=
  match es with
  | [] => Ok []
  | e :: rest =>
      match Expression_TransformUp f e with
      | Err err => Err err
      | Ok e' =>
          match transformExpressionsUp f rest with
          | Err err => Err err
          | Ok rest' => Ok (e' :: rest')
          end
      end
  end.

(** The function literal handed to [TransformExpressions] in the default
    case of the rewrite: the loop over the schemas of the children. *)
Fixpoint fixOverSchemas (schemas : list Schema) (e : Expression)
    : result Expression :=
  match schemas with
  | [] => Ok e
  | schema :: rest =>
      match fixFieldIndexes schema e with
      | Ok fixed => Ok fixed
      | Err err =>
          if ErrFieldMissing_Is err then fixOverSchemas rest e else Err err
      end
  end.

Section Pushdown.

Context {T : Type} `{Table T}.

(** [TransformUp].  The cases of [UnresolvedTable] and [releaser] are in
    the sources.  Modelled from the spec: the others (every child is
    transformed first, the node is rebuilt around the transformed
    children, and [f] is applied to the rebuilt node). *)
Fixpoint TransformUp (f : Node T -> Rewrite (Node T)) (n : Node T)
    : Rewrite (Node T) :=
  match n with
  | ResolvedTable t => f (ResolvedTable t)
  | UnresolvedTable name => f (UnresolvedTable name)
  | Filter e c =>
      let* child := TransformUp f c in f (Filter e child)
  | Project es c =>
      let* child := TransformUp f c in f (Project es child)
  | InnerJoin l r cond =>
      let* left := TransformUp f l in
      let* right := TransformUp f r in
      f (InnerJoin left right cond)
  | InsertInto l r =>
      let* left := TransformUp f l in
      let* right := TransformUp f r in
      f (InsertInto left right)
  | CreateIndex name t es =>
      let* child := TransformUp f t in f (CreateIndex name child es)
  | Releaser c release =>
      let* child := TransformUp f c in f (Releaser child release)
  end.

(** Modelled from the spec: [TransformExpressions] of the nodes that own
    expressions (the plan package is not part of the sources at hand);
    [None] is the failed type assertion [node.(sql.Expressioner)]. *)
Definition TransformExpressions
    (f : Expression -> result Expression) (n : Node T)
    : option (result (Node T)) :=
  match n with
  | Filter e c =>
      Some match Expression_TransformUp f e with
           | Err err => Err err
           | Ok e' => Ok (Filter e' c)
           end
  | Project es c =>
      Some match transformExpressionsUp f es with
           | Err err => Err err
           | Ok es' => Ok (Project es' c)
           end
  | InnerJoin l r cond =>
      Some match Expression_TransformUp f cond with
           | Err err => Err err
           | Ok cond' => Ok (InnerJoin l r cond')
           end
  | CreateIndex name t es =>
      Some match transformExpressionsUp f es with
           | Err err => Err err
           | Ok es' => Ok (CreateIndex name t es')
           end
  | _ => None
  end.

(** What the analysis phase hands to the rewrite. *)
Variable fields : gmap string (list string).
Variable filters : gmap string (list Expression).
Variable assigned : gmap string indexLookup.

(** [case *plan.Filter] *)
Definition rewriteFilter (e : Expression) (child : Node T)
    : Rewrite (Node T) :=
  fun st =>
    match handledFilters st with
    | [] => (Ok (Filter e child), st)
    | _ :: _ =>
        match getUnhandledFilters (splitExpression e) (handledFilters st) with
        | [] => (Ok child, st)
        | u :: unhandled => (Ok (Filter (JoinAnd u unhandled) child), st)
        end
    end.

(** The filter step of [case *plan.ResolvedTable]: the handled filters are
    recorded first, then fixed up against the schema of the node, then
    installed. *)
Definition pushFilters (node : T) (table : T) : Rewrite T :=
  fun st =>
    if isFilteredTable table then
      let tableFilters := filters !!! TableName node in
      let handled := HandledFilters table tableFilters in
      let st' := mkState (handledFilters st ++ handled) (queryIndexes st) in
      let schema := TableSchema node in
      match fixFieldIndexesOnExpressions schema handled with
      | Err err => (Err err, st')
      | Ok handled' => (Ok (WithFilters table handled'), st')
      end
    else (Ok table, st).

(** The projection step. *)
Definition pushProjection (node : T) (table : T) : Rewrite T :=
  fun st =>
    if isProjectedTable table
    then (Ok (WithProjection table (fields !!! TableName node)), st)
    else (Ok table, st).

(** The index step. *)
Definition pushIndex (node : T) (table : T) : Rewrite T :=
  fun st =>
    if isIndexableTable table then
      match assigned !! TableName node with
      | Some indexLookup =>
          (Ok (WithIndexLookup table (lookup_ indexLookup)),
           mkState (handledFilters st)
                   (queryIndexes st ++ indexes indexLookup))
      | None => (Ok table, st)
      end
    else (Ok table, st).

(** [case *plan.ResolvedTable] *)
Definition rewriteTable (node : T) : Rewrite (Node T) :=
  let* table := pushFilters node node in
  let* table := pushProjection node table in
  let* table := pushIndex node table in
  ret (ResolvedTable table).

(** [default] *)
Definition rewriteOther (node : Node T) : Rewrite (Node T) :=
  fun st =>
    let schemas := map NodeSchema (Children node) in
    match TransformExpressions (fixOverSchemas schemas) node with
    | None => (Ok node, st)
    | Some transformed =>
        if bool_decide (length schemas < 1) then (Ok node, st)
        else
          match transformed with
          | Err err => (Err err, st)
          | Ok (InnerJoin l r cond as ij) =>
              match fixFieldIndexes (NodeSchema ij) cond with
              | Err err => (Err err, st)
              | Ok cond' => (Ok (InnerJoin l r cond'), st)
              end
          | Ok n => (Ok n, st)
          end
    end.

(** The function literal handed to [n.TransformUp]. *)
Definition rewriteNode (node : Node T) : Rewrite (Node T) :=
  match node with
  | Filter e child => rewriteFilter e child
  | ResolvedTable t => rewriteTable t
  | _ => rewriteOther node
  end.

End Pushdown.

(** What a run does to the world outside the plan: it asks for the index
    assignment and it hands handles back to the catalog. *)
Inductive Event : Type :=
| AssignIndexes
| ReleaseIndex (idx : Index).

(** The analyzer, as far as the rule uses it.  Modelled from the spec: the
    index assignment provider ([assignIndexes] is not part of the sources at
    hand), which maps the tree to a lookup and handles per table, or
    fails. *)
Record Analyzer (T : Type) : Type := mkAnalyzer {
  assignIndexes : Node T -> result (gmap string indexLookup)
}.
Arguments assignIndexes {T} a n.

(** The closure [release]: one [a.Catalog.ReleaseIndex] per handle. *)
Definition release (queryIndexes : list Index) : list Event :=
  map ReleaseIndex queryIndexes.

Section Rule.

Context {T : Type} `{Table T}.

(** The rewrite phase of [pushdown] on the results of the analysis
    phase. *)
Definition transform (n : Node T)
    (assigned : gmap string indexLookup)
    : result (Node T) * pushdownState :=
  let fields := fieldsByTable (collectColumns (InspectExpressions n)) in
  let filters := collectFilters (Inspect n) in
  TransformUp (rewriteNode fields filters assigned) n (mkState [] []).

(** [pushdown]: the node or the error it returns, and what it did to the
    world, in order. *)
Definition pushdown (a : Analyzer T) (n : Node T)
    : result (Node T) * list Event :=
  if negb (Resolved n) then (Ok n, [])
  else if isInsertOrCreateIndex n then (Ok n, [])
  else
    match assignIndexes a n with
    | Err err => (Err err, [AssignIndexes])
    | Ok assigned =>
        match transform n assigned with
        | (Err err, st) =>
            (Err err, AssignIndexes :: release (queryIndexes st))
        | (Ok node, st) =>
            match queryIndexes st with
            | _ :: _ => (Ok (Releaser node (queryIndexes st)), [AssignIndexes])
            | [] => (Ok node, [AssignIndexes])
            end
        end
    end.

End Rule.

(** ** The releaser and its row iterator *)

Module ReleaseIter.

(** [sql.Row] *)
Definition Row : Type := list Z.

(** The wrapped row iterator: what its calls of [Next] will answer, in
    order (end of rows once the answers are used up), and how often each
    of its two methods has been called. *)
Record RowIter : Type := mkRowIter {
  answers : list (result Row);
  nextCalls : nat;
  closeCalls : nat
}.

Definition RowIter_Next (it : RowIter) : result Row * RowIter :=
  match answers it with
  | [] => (Err EOF, mkRowIter [] (S (nextCalls it)) (closeCalls it))
  | r :: rest => (r, mkRowIter rest (S (nextCalls it)) (closeCalls it))
  end.

Definition RowIter_Close (it : RowIter) : option error * RowIter :=
  (None, mkRowIter (answers it) (nextCalls it) (S (closeCalls it))).

(** The catalog as the release callback sees it: how often the callback
    has run, and the handles given back so far. *)
Record World : Type := mkWorld {
  releaseCalls : nat;
  released : list Index
}.

(** One call of the closure [release] of [pushdown]. *)
Definition Release (handles : list Index) (w : World) : World :=
  mkWorld (S (releaseCalls w)) (released w ++ handles).

(** [releaseIter]; [once] is true when [sync.Once] has run. *)
Record releaseIter : Type := mkReleaseIter {
  child : RowIter;
  release_ : list Index;
  once : bool
}.

(** [i.once.Do(i.release)] *)
Definition once_Do (i : releaseIter) (w : World) : releaseIter * World :=
  if once i then (i, w)
  else (mkReleaseIter (child i) (release_ i) true, Release (release_ i) w).

(** [releaseIter.Close] *)
Definition Close (i : releaseIter) (w : World)
    : option error * releaseIter * World :=
  let '(i', w') := once_Do i w in (None, i', w').

(** [releaseIter.Next] *)
Definition Next (i : releaseIter) (w : World)
    : result Row * releaseIter * World :=
  let '(r, c) := RowIter_Next (child i) in
  let i1 := mkReleaseIter c (release_ i) (once i) in
  match r with
  | Err err =>
      let '(_, i2, w2) := Close i1 w in (Err err, i2, w2)
  | Ok row => (Ok row, i1, w)
  end.

(** [releaser.RowIter], on what [r.Child.RowIter(ctx)] answers. *)
Definition RowIter_ (handles : list Index) (childIter : result RowIter)
    (w : World) : result releaseIter * World :=
  match childIter with
  | Err err => (Err err, Release handles w)
  | Ok iter => (Ok (mkReleaseIter iter handles false), w)
  end.

(** What a consumer does with a row sequence, and what it sees. *)
Inductive Call : Type := CallNext | CallClose.

Inductive Answer : Type :=
| NextAnswer (r : result Row)
| CloseAnswer (err : option error).

Definition call (c : Call) (i : releaseIter) (w : World)
    : Answer * releaseIter * World :=
  match c with
  | CallNext => let '(r, i', w') := Next i w in (NextAnswer r, i', w')
  | CallClose => let '(e, i', w') := Close i w in (CloseAnswer e, i', w')
  end.

Fixpoint consume (calls : list Call) (i : releaseIter) (w : World)
    : list Answer * releaseIter * World :=
  match calls with
  | [] => ([], i, w)
  | c :: rest =>
      let '(a, i1, w1) := call c i w in
      let '(answers, i2, w2) := consume rest i1 w1 in
      (a :: answers, i2, w2)
  end.

(** The answer of a failed [Next] or of any [Close]. *)
Definition ends (a : Answer) : bool :=
  match a with
  | NextAnswer (Err _) => true
  | NextAnswer (Ok _) => false
  | CloseAnswer _ => true
  end.

(** A [Close] answers nil. *)
Definition nilClose (a : Answer) : Prop :=
  match a with
  | CloseAnswer err => err = None
  | NextAnswer _ => True
  end.

End ReleaseIter.

(** ** A table for the scenarios *)

(** An in-memory table: its declared columns, which capabilities it has,
    and what has been pushed down to it so far.  It handles every filter it
    is offered, and a projection leaves the named columns, in the order of
    the names. *)
Record memTable : Type := mkMemTable {
  mtName : string;
  mtColumns : Schema;
  mtFiltered : bool;
  mtProjected : bool;
  mtIndexable : bool;
  mtFilters : list Expression;
  mtProjection : option (list string);
  mtLookup : option IndexLookup
}.

Definition memTable_Schema (t : memTable) : Schema :=
  match mtProjection t with
  | None => mtColumns t
  | Some names =>
      flat_map
        (fun n => filter (fun col => Name col = n) (mtColumns t)) names
  end.

#[export] Instance memTable_Table : Table memTable := {
  TableName := mtName;
  TableSchema := memTable_Schema;
  isFilteredTable := mtFiltered;
  HandledFilters := fun _ filters => filters;
  WithFilters := fun t filters =>
    mkMemTable (mtName t) (mtColumns t) (mtFiltered t) (mtProjected t)
               (mtIndexable t) filters (mtProjection t) (mtLookup t);
  isProjectedTable := mtProjected;
  WithProjection := fun t names =>
    mkMemTable (mtName t) (mtColumns t) (mtFiltered t) (mtProjected t)
               (mtIndexable t) (mtFilters t) (Some names) (mtLookup t);
  isIndexableTable := mtIndexable;
  WithIndexLookup := fun t l =>
    mkMemTable (mtName t) (mtColumns t) (mtFiltered t) (mtProjected t)
               (mtIndexable t) (mtFilters t) (mtProjection t) (Some l)
}.

(** ** Vocabulary of the stated properties *)

(** A column is the one a field reference names. *)
Definition named (t n : string) (col : Column) : Prop :=
  Name col = n /\ Source col = t.

(** [j] is the position of the first column of the schema that the field
    reference names. *)
Definition firstNamed (schema : Schema) (t n : string) (j : nat) : Prop :=
  (exists col, schema !! j = Some col /\ named t n col) /\
  forall k col, k < j -> schema !! k = Some col -> ~ named t n col.

(** [Reindexed schema e e']: [e'] is [e] with the index of every field
    reference replaced by the position of the first column it names; type,
    table, name and nullability are kept, and so is everything else. *)
Inductive Reindexed (schema : Schema) : Expression -> Expression -> Prop :=
| Reindexed_GetField i j ty t n nl :
    firstNamed schema t n j ->
    Reindexed schema (GetField i ty t n nl) (GetField j ty t n nl)
| Reindexed_Literal v ty :
    Reindexed schema (Literal v ty) (Literal v ty)
| Reindexed_And l l' r r' :
    Reindexed schema l l' -> Reindexed schema r r' ->
    Reindexed schema (And l r) (And l' r')
| Reindexed_Or l l' r r' :
    Reindexed schema l l' -> Reindexed schema r r' ->
    Reindexed schema (Or l r) (Or l' r')
| Reindexed_Not c c' :
    Reindexed schema c c' -> Reindexed schema (Not c) (Not c')
| Reindexed_Equals l l' r r' :
    Reindexed schema l l' -> Reindexed schema r r' ->
    Reindexed schema (Equals l r) (Equals l' r')
| Reindexed_GreaterThan l l' r r' :
    Reindexed schema l l' -> Reindexed schema r r' ->
    Reindexed schema (GreaterThan l r) (GreaterThan l' r').

(** Some field reference of the expression names no column of the schema. *)
Definition missing (schema : Schema) (e : Expression) : Prop :=
  exists t n, (t, n) ∈ fieldRefs e /\ forall col, col ∈ schema -> ~ named t n col.

(** The (table, column) pairs of the field references among the visited
    expressions, in the order of the visit. *)
Definition usedColumns (visited : list Expression) : list (string * string) :=
  flat_map
    (fun x => match x with GetField _ _ t n _ => [(t, n)] | _ => [] end)
    visited.

(** The first occurrence of every element that is not in [seen], in order;
    later occurrences are left out. *)
Fixpoint firstOccurrences {A} `{EqDecision A} (seen l : list A) : list A :=
  match l with
  | [] => []
  | x :: rest =>
      if bool_decide (x ∈ seen) then firstOccurrences seen rest
      else x :: firstOccurrences (x :: seen) rest
  end.

(** The columns of one table among (table, column) pairs. *)
Definition columnsOf (t : string) (pairs : list (string * string))
    : list string :=
  map snd (filter (fun p => p.1 = t) pairs).

(** The result of the first schema against which the fixup of the expression
    succeeds, if there is one. *)
Fixpoint firstFixed (schemas : list Schema) (e : Expression)
    : option Expression :=
  match schemas with
  | [] => None
  | schema :: rest =>
      match fixFieldIndexes schema e with
      | Ok fixed => Some fixed
      | Err _ => firstFixed rest e
      end
  end.

(** What the fixup of one expression answers, in full. *)
Definition fixupSound (schema : Schema) (e : Expression) : Prop :=
  match fixFieldIndexes schema e with
  | Ok e' => Reindexed schema e e' /\ ~ missing schema e
  | Err err => missing schema e /\ exists n, err = ErrFieldMissing n
  end.

(** The table after the projection step and after the index step of the
    rewrite of the table node [node]. *)
Definition projected {T} `{Table T}
    (fields : gmap string (list string)) (node table : T) : T :=
  if isProjectedTable table
  then WithProjection table (fields !!! TableName node)
  else table.

Definition indexed {T} `{Table T}
    (assigned : gmap string indexLookup) (node table : T) : T :=
  if isIndexableTable table then
    match assigned !! TableName node with
    | Some l => WithIndexLookup table (lookup_ l)
    | None => table
    end
  else table.

(** A predicate that is not a conjunction. *)
Definition notAnd (e : Expression) : Prop :=
  match e with
  | And _ _ => False
  | _ => True
  end.

(** [filterRewritten e child handled node]: [node] is what is left of the
    filter of predicate [e] over [child] once the conjuncts in [handled] are
    dropped: the child itself when no conjunct remains, and otherwise a
    filter over the child whose predicate has the remaining conjuncts as its
    conjuncts; that predicate is [e] itself when nothing is handled at all,
    and the remaining conjuncts joined again otherwise. *)
Definition filterRewritten {T}
    (e : Expression) (child : Node T) (handled : list Expression)
    (node : Node T) : Prop :=
  match getUnhandledFilters (splitExpression e) handled with
  | [] => node = child
  | u :: rest =>
      exists predicate,
        node = Filter predicate child /\
        splitExpression predicate = u :: rest /\
        predicate = match handled with [] => e | _ :: _ => JoinAnd u rest end
  end.

(** A step that only appends to the recorded handles. *)
Definition grows {A} (m : Rewrite A) : Prop :=
  forall st r st',
    m st = (r, st') -> exists more, queryIndexes st' = queryIndexes st ++ more.

(** ** Scenarios *)

Module Scenario.

(** Table [t] with the columns [a], [b], [c] and all three capabilities;
    table [u] with the column [b], filters and projections only; table [p]
    with the column [b] and no capability. *)
Definition t_a : Column := mkColumn "a" Int64 false "t".
Definition t_b : Column := mkColumn "b" Int64 false "t".
Definition t_c : Column := mkColumn "c" Int64 false "t".
Definition u_b : Column := mkColumn "b" Int64 false "u".
Definition p_b : Column := mkColumn "b" Int64 false "p".

Definition t : memTable :=
  mkMemTable "t" [t_a; t_b; t_c] true true true [] None None.
Definition u : memTable :=
  mkMemTable "u" [u_b] true true false [] None None.
Definition p : memTable :=
  mkMemTable "p" [p_b] false false false [] None None.

Definition one : Expression := Literal 1 Int64.
Definition two : Expression := Literal 2 Int64.
Definition ref_t_a : Expression := GetField 0 Int64 "t" "a" false.
Definition ref_t_c : Expression := GetField 2 Int64 "t" "c" false.
Definition ref_u_b : Expression := GetField 0 Int64 "u" "b" false.
Definition ref_u_z : Expression := GetField 0 Int64 "u" "z" false.
Definition ref_p_b : Expression := GetField 0 Int64 "p" "b" false.
Definition ref_t_x : Expression := GetField 0 Int64 "t" "x" false.

(** An index assignment with two handles for [t]; one that fails. *)
Definition withIndexes : Analyzer memTable :=
  mkAnalyzer _ (fun _ => Ok {[ "t" := mkIndexLookup 7 ["idx1"; "idx2"] ]}).
Definition noIndexes : Analyzer memTable :=
  mkAnalyzer _ (fun _ => Ok ∅).
Definition failing : Analyzer memTable :=
  mkAnalyzer _ (fun _ => Err (ErrOther "no catalog")).

Definition join : Node memTable :=
  InnerJoin (ResolvedTable t) (ResolvedTable u) (Equals ref_t_a ref_u_b).

(** [Filter(t.c = 1 AND u.b = 2, Join(t, u))] *)
Definition filtered : Node memTable :=
  Filter (And (Equals ref_t_c one) (Equals ref_u_b two)) join.

(** [Filter(u.z = 2, Join(t, u))], where [u] has no column [z]. *)
Definition broken : Node memTable :=
  Filter (Equals ref_u_z two) join.

(** [Project(t.x, p)]: the projected field is not a column of [p]. *)
Definition stray : Node memTable :=
  Project [ref_t_x] (ResolvedTable p).

(** [Join(p, p', p.b = p'.b)] over two tables without capabilities. *)
Definition p' : memTable :=
  mkMemTable "q" [mkColumn "b" Int64 false "q"] false false false [] None None.
Definition ref_q_b : Expression := GetField 0 Int64 "q" "b" false.
Definition plainJoin : Node memTable :=
  InnerJoin (ResolvedTable p) (ResolvedTable p') (Equals ref_p_b ref_q_b).

(** What the analysis phase collects on [filtered]. *)
Definition fields : gmap string (list string) :=
  fieldsByTable (collectColumns (InspectExpressions filtered)).
Definition filters : gmap string (list Expression) :=
  collectFilters (Inspect filtered).
Definition assigned : gmap string indexLookup :=
  {[ "t" := mkIndexLookup 7 ["idx1"; "idx2"] ]}.

Definition insert : Node memTable :=
  InsertInto (ResolvedTable t) (ResolvedTable u).

Definition unresolved : Node memTable :=
  Filter (Equals ref_t_a one) (UnresolvedTable "t").

End Scenario.

(** ** Further vocabulary *)

(** Every field reference of the expression carries the position of a
    column of the schema that has its name and table tag. *)
Definition wellIndexed (schema : Schema) (e : Expression) : Prop :=
  forall i ty t n nl,
    GetField i ty t n nl ∈ walkExpression e ->
    exists col, schema !! i = Some col /\ named t n col.

(** The expression with the index of every field reference set to zero:
    what is left of it when the indexes are disregarded. *)
Fixpoint eraseIndexes (e : Expression) : Expression :=
  match e with
  | GetField _ ty t n nl => GetField 0 ty t n nl
  | Literal v ty => Literal v ty
  | And l r => And (eraseIndexes l) (eraseIndexes r)
  | Or l r => Or (eraseIndexes l) (eraseIndexes r)
  | Not c => Not (eraseIndexes c)
  | Equals l r => Equals (eraseIndexes l) (eraseIndexes r)
  | GreaterThan l r => GreaterThan (eraseIndexes l) (eraseIndexes r)
  end.

(** The expression with the index of every field reference moved up by
    [k] positions. *)
Fixpoint shiftIndexes (k : nat) (e : Expression) : Expression :=
  match e with
  | GetField i ty t n nl => GetField (k + i) ty t n nl
  | Literal v ty => Literal v ty
  | And l r => And (shiftIndexes k l) (shiftIndexes k r)
  | Or l r => Or (shiftIndexes k l) (shiftIndexes k r)
  | Not c => Not (shiftIndexes k c)
  | Equals l r => Equals (shiftIndexes k l) (shiftIndexes k r)
  | GreaterThan l r => GreaterThan (shiftIndexes k l) (shiftIndexes k r)
  end.

(** No column of the schema is named by a field reference of the
    expression. *)
Definition unnamedIn (schema : Schema) (e : Expression) : Prop :=
  forall t n col, (t, n) ∈ fieldRefs e -> col ∈ schema -> ~ named t n col.

(** The expression is the field reference to column [n] of table [t]. *)
Definition refersTo (t n : string) (e : Expression) : Prop :=
  exists i ty nl, e = GetField i ty t n nl.

Section Shape.

Context {T : Type} `{Table T}.

(** The tables of the table nodes of a plan, from left to right. *)
Fixpoint tables (n : Node T) : list T :=
  match n with
  | ResolvedTable t => [t]
  | UnresolvedTable _ => []
  | Filter _ c | Project _ c | CreateIndex _ c _ | Releaser c _ => tables c
  | InnerJoin l r _ | InsertInto l r => tables l ++ tables r
  end.

(** The number of filter nodes of a plan. *)
Fixpoint countFilters (n : Node T) : nat :=
  match n with
  | ResolvedTable _ | UnresolvedTable _ => 0
  | Filter _ c => S (countFilters c)
  | Project _ c | CreateIndex _ c _ | Releaser c _ => countFilters c
  | InnerJoin l r _ | InsertInto l r => countFilters l + countFilters r
  end.

(** The predicates of the filter nodes of a plan, a node before its
    children, from left to right. *)
Fixpoint predicates (n : Node T) : list Expression :=
  match n with
  | ResolvedTable _ | UnresolvedTable _ => []
  | Filter e c => e :: predicates c
  | Project _ c | CreateIndex _ c _ | Releaser c _ => predicates c
  | InnerJoin l r _ | InsertInto l r => predicates l ++ predicates r
  end.

End Shape.

(** A handle that the index assignment gives for the table of that name. *)
Definition assignedTo (assigned : gmap string indexLookup)
    (name : string) (idx : Index) : Prop :=
  exists l, assigned !! name = Some l /\ idx ∈ indexes l.

(** The three maps of the column usage agree for the table [t]: the
    recorded expressions are field references to the recorded columns of
    [t], one for one and in order, and a pair is marked as seen exactly
    when its column is recorded. *)
Definition inStep (u : columnUsage) (t : string) : Prop :=
  Forall2 (fun e n => refersTo t n e)
          (exprsByTable u !!! t) (fieldsByTable u !!! t) /\
  forall n, (t, n) ∈ tableFields u <-> n ∈ fieldsByTable u !!! t.

(** What a traversal of the plan [n] from the state [st] to the state [st']
    with the answer [r] keeps: the handles it records are appended and are
    given by the assignment for tables of the plan; when no table of the
    plan takes filters and no filter is handled yet, none is handled
    afterwards and the predicates of the filter nodes are as before; and
    the answer has no more filter nodes than the plan. *)
Definition traversed {T} `{Table T} (assigned : gmap string indexLookup)
    (n : Node T) (st : pushdownState)
    (r : result (Node T)) (st' : pushdownState) : Prop :=
  (exists more,
      queryIndexes st' = queryIndexes st ++ more /\
      forall idx, idx ∈ more ->
        exists t, t ∈ tables n /\ assignedTo assigned (TableName t) idx) /\
  ((forall t, t ∈ tables n -> isFilteredTable t = false) ->
   handledFilters st = [] ->
   handledFilters st' = [] /\
   forall n', r = Ok n' -> predicates n' = predicates n) /\
  (forall n', r = Ok n' -> countFilters n' <= countFilters n).

(** More scenarios. *)
Module Cases.


End Cases.

(** ** The consumer's view of a row sequence *)

Module Consumer.

Import ReleaseIter.

(** What the calls of [Next] among the calls answered, in order. *)
Definition nextAnswers (answers : list Answer) : list (result Row) :=
  flat_map
    (fun a => match a with NextAnswer r => [r] | CloseAnswer _ => [] end)
    answers.

(** The number of calls of [Next] among the calls. *)
Fixpoint countNext (calls : list Call) : nat :=
  match calls with
  | [] => 0
  | CallNext :: rest => S (countNext rest)
  | CallClose :: rest => countNext rest
  end.

(** The first [k] answers of a wrapped iterator with the given answers
    left: those answers, then end of rows. *)
Fixpoint served (left : list (result Row)) (k : nat) : list (result Row) :=
  match k with
  | 0 => []
  | S k' =>
      match left with
      | [] => Err EOF :: served [] k'
      | r :: rest => r :: served rest k'
      end
  end.

End Consumer.

(** ** A releaser over a releaser *)

(** The row sequence of a releaser whose child is a releaser itself, as
    the rule builds it when it runs on a plan it has wrapped before: the
    wrapped row iterator of the outer [releaseIter] is the [releaseIter] of
    the inner releaser. *)
Module Nested.

Import ReleaseIter.

Record outerIter : Type := mkOuterIter {
  inner : releaseIter;
  outerRelease : list Index;
  outerOnce : bool
}.

(** [i.once.Do(i.release)] of the outer sequence. *)
Definition outer_once_Do (o : outerIter) (w : World) : outerIter * World :=
  if outerOnce o then (o, w)
  else (mkOuterIter (inner o) (outerRelease o) true,
        Release (outerRelease o) w).

(** [releaseIter.Close] of the outer sequence. *)
Definition outerClose (o : outerIter) (w : World)
    : option error * outerIter * World :=
  let '(o', w') := outer_once_Do o w in (None, o', w').

(** [releaseIter.Next] of the outer sequence: [i.child.Next()] is the
    [Next] of the inner sequence. *)
Definition outerNext (o : outerIter) (w : World)
    : result Row * outerIter * World :=
  let '(r, i, w1) := Next (inner o) w in
  let o1 := mkOuterIter i (outerRelease o) (outerOnce o) in
  match r with
  | Err err =>
      let '(_, o2, w2) := outerClose o1 w1 in (Err err, o2, w2)
  | Ok row => (Ok row, o1, w1)
  end.

(** [k] calls of [Close] in a row. *)
Fixpoint closes (k : nat) (o : outerIter) (w : World) : outerIter * World :=
  match k with
  | 0 => (o, w)
  | S k' => let '(_, o', w') := outerClose o w in closes k' o' w'
  end.

(** The sequence as the two releasers hand it out. *)
Definition fresh (it : RowIter) (innerHandles outerHandles : list Index)
    : outerIter :=
  mkOuterIter (mkReleaseIter it innerHandles false) outerHandles false.

End Nested.

(** ** The registry of regular-expression engines *)

Module Regex.

(** The error kinds of the package; [ErrCompile] stands for any error of a
    constructor. *)
Inductive Error : Type :=
| ErrRegexAlreadyRegistered (name : string)
| ErrRegexNameEmpty
| ErrRegexNotFound (name : string)
| ErrCompile (msg : string).

(** [Matcher]: its one method, [Match]. *)
Definition Matcher : Type := string -> bool.

(** [Constructor] *)
Definition Constructor : Type := string -> Matcher + Error.

(** The two package variables; [registry] is [None] while the map is
    nil. *)
Record State : Type := mkRegistry {
  registry : option (gmap string Constructor);
  defaultEngine : string
}.

Definition initial : State := mkRegistry None "".

(** A read of the map: a nil map reads as an empty one. *)
Definition entries (st : State) : gmap string Constructor :=
  match registry st with
  | None => ∅
  | Some m => m
  end.

(** [Register]: the error it returns, nil being [None], and the package
    variables afterwards.  The map is made before the name is looked at. *)
Definition Register (name : string) (c : Constructor) (st : State)
    : option Error * State :=
  let made := mkRegistry (Some (entries st)) (defaultEngine st) in
  if bool_decide (name = "") then (Some ErrRegexNameEmpty, made)
  else
    match entries made !! name with
    | Some _ => (Some (ErrRegexAlreadyRegistered name), made)
    | None =>
        (None, mkRegistry (Some (<[ name := c ]> (entries made)))
                       (defaultEngine st))
    end.

(** [Engines]: the names in the map, in an order the language leaves
    open. *)
Definition Engines (st : State) : list string :=
  (map_to_list (entries st)).*1.

(** [New] *)
Definition New (name re : string) (st : State) : Matcher + Error :=
  match entries st !! name with
  | None => inr (ErrRegexNotFound name)
  | Some n => n re
  end.

(** [Default] *)
Definition Default (st : State) : string :=
  if bool_decide (defaultEngine st <> "") then defaultEngine st
  else
    match entries st !! "oniguruma" with
    | Some _ => "oniguruma"
    | None => "go"
    end.

(** [SetDefault] *)
Definition SetDefault (name : string) (st : State) : State :=
  mkRegistry (registry st) name.

(** A call that changes the package variables, and a run of such calls
    from a state. *)
Inductive Op : Type :=
| OpRegister (name : string) (c : Constructor)
| OpSetDefault (name : string).

Definition step (st : State) (op : Op) : State :=
  match op with
  | OpRegister name c => snd (Register name c st)
  | OpSetDefault name => SetDefault name st
  end.

Definition run (ops : list Op) (st : State) : State := foldl step st ops.

(** The constructor of the first call among [ops] that registers [name]. *)
Fixpoint firstRegistered (name : string) (ops : list Op)
    : option Constructor :=
  match ops with
  | [] => None
  | OpRegister n c :: rest =>
      if bool_decide (n = name) then Some c else firstRegistered name rest
  | OpSetDefault _ :: rest => firstRegistered name rest
  end.

(** The name of the last call among [ops] that sets the default, and [d]
    when there is none. *)
Definition lastDefault (d : string) (ops : list Op) : string :=
  foldl (fun d op => match op with OpSetDefault n => n | _ => d end) d ops.

End Regex.

(** What the search over the schemas makes of one expression: the result
    of the first schema against which its fixup succeeds, and the
    expression itself when the fixup fails against every schema. *)
Definition firstFixedOr (schemas : list Schema) (e : Expression)
    : Expression :=
  match firstFixed schemas e with
  | Some fixed => fixed
  | None => e
  end.

(** The search applied bottom-up: to every sub-expression of the
    expression, once the search has been applied to its children. *)
Fixpoint searchedUp (schemas : list Schema) (e : Expression) : Expression :=
  match e with
  | GetField i ty t n nl => firstFixedOr schemas (GetField i ty t n nl)
  | Literal v ty => firstFixedOr schemas (Literal v ty)
  | And l r =>
      firstFixedOr schemas (And (searchedUp schemas l) (searchedUp schemas r))
  | Or l r =>
      firstFixedOr schemas (Or (searchedUp schemas l) (searchedUp schemas r))
  | Not c => firstFixedOr schemas (Not (searchedUp schemas c))
  | Equals l r =>
      firstFixedOr schemas
        (Equals (searchedUp schemas l) (searchedUp schemas r))
  | GreaterThan l r =>
      firstFixedOr schemas
        (GreaterThan (searchedUp schemas l) (searchedUp schemas r))
  end.

(** ** Properties of the field-index fixup *)

Lemma findColumn_Some schema i t n j :
  findColumn schema i n t = Some j ->
  i <= j /\ firstNamed schema t n (j - i).
Proof.
  revert i. induction schema as [|col rest IH]; intros i Hf; simpl in Hf.
  - discriminate.
  - destruct (bool_decide (n = Name col) && bool_decide (t = Source col)) eqn:Hm.
    + injection Hf as <-. apply andb_prop in Hm as [Hn Hs].
      apply bool_decide_eq_true_1 in Hn, Hs.
      split; [lia|]. replace (i - i) with 0 by lia. split.
      * exists col. split; [reflexivity|]. split; congruence.
      * intros k c Hk. lia.
    + apply IH in Hf as [Hle [[c [Hc Hnamed]] Hfirst]].
      split; [lia|].
      replace (j - i) with (S (j - S i)) by lia. split.
      * exists c. split; [exact Hc | exact Hnamed].
      * intros k c' Hk Hl [Hn Hs]. destruct k as [|k].
        -- simpl in Hl. injection Hl as <-.
           rewrite <- Hn, <- Hs in Hm.
           rewrite !bool_decide_eq_true_2 in Hm by reflexivity. discriminate.
        -- simpl in Hl. apply (Hfirst k c'); [lia | exact Hl | split; assumption].
Qed.

Lemma findColumn_None schema i t n :
  findColumn schema i n t = None ->
  forall col, col ∈ schema -> ~ named t n col.
Proof.
  revert i. induction schema as [|c rest IH]; intros i Hf col Hin.
  - inversion Hin.
  - simpl in Hf.
    destruct (bool_decide (n = Name c) && bool_decide (t = Source c)) eqn:Hm;
      [discriminate|].
    apply elem_of_cons in Hin as [-> | Hin].
    + intros [Hn Hs]. rewrite <- Hn, <- Hs in Hm.
      rewrite !bool_decide_eq_true_2 in Hm by reflexivity. discriminate.
    + eapply IH; eassumption.
Qed.

Lemma firstNamed_elem schema t n j :
  firstNamed schema t n j -> exists col, col ∈ schema /\ named t n col.
Proof.
  intros [[col [Hl Hn]] _]. exists col. split; [|exact Hn].
  eapply list_elem_of_lookup_2. exact Hl.
Qed.

Lemma fieldRefs_GetField i ty t n nl :
  fieldRefs (GetField i ty t n nl) = [(t, n)].
Proof. reflexivity. Qed.

Lemma fieldRefs_Literal v ty : fieldRefs (Literal v ty) = [].
Proof. reflexivity. Qed.

Lemma fieldRefs_Not c : fieldRefs (Not c) = fieldRefs c.
Proof. reflexivity. Qed.

Lemma fieldRefs_binary (mk : Expression -> Expression -> Expression) l r :
  mk = And \/ mk = Or \/ mk = Equals \/ mk = GreaterThan ->
  fieldRefs (mk l r) = fieldRefs l ++ fieldRefs r.
Proof.
  unfold fieldRefs.
  intros [-> | [-> | [-> | ->]]]; simpl; rewrite flat_map_app; reflexivity.
Qed.

Lemma missing_binary (mk : Expression -> Expression -> Expression) schema l r :
  mk = And \/ mk = Or \/ mk = Equals \/ mk = GreaterThan ->
  missing schema (mk l r) <-> missing schema l \/ missing schema r.
Proof.
  intros Hmk. unfold missing. rewrite (fieldRefs_binary mk l r Hmk). split.
  - intros (t & n & Hin & Hno). apply elem_of_app in Hin as [Hin|Hin];
      [left|right]; exists t, n; split; assumption.
  - intros [(t & n & Hin & Hno)|(t & n & Hin & Hno)]; exists t, n;
      (split; [apply elem_of_app; auto | assumption]).
Qed.

Lemma fixField_other schema e :
  (forall i ty t n nl, e <> GetField i ty t n nl) -> fixField schema e = Ok e.
Proof. intros Hne. destruct e; try reflexivity. exfalso. eapply Hne. reflexivity. Qed.

Lemma fixupSound_binary (mk : Expression -> Expression -> Expression) schema l r :
  mk = And \/ mk = Or \/ mk = Equals \/ mk = GreaterThan ->
  fixupSound schema l -> fixupSound schema r -> fixupSound schema (mk l r).
Proof.
  intros Hmk Hl Hr. unfold fixupSound in *.
  assert (Hstep : fixFieldIndexes schema (mk l r) =
                  match fixFieldIndexes schema l with
                  | Err err => Err err
                  | Ok l' =>
                      match fixFieldIndexes schema r with
                      | Err err => Err err
                      | Ok r' => Ok (mk l' r')
                      end
                  end).
  { unfold fixFieldIndexes.
    destruct Hmk as [-> | [-> | [-> | ->]]]; simpl;
      destruct (Expression_TransformUp (fixField schema) l); try reflexivity;
      destruct (Expression_TransformUp (fixField schema) r); reflexivity. }
  rewrite Hstep. pose proof (missing_binary mk schema l r Hmk) as Hmiss.
  destruct (fixFieldIndexes schema l) as [l'|errl].
  - destruct Hl as [Hl Hnl].
    destruct (fixFieldIndexes schema r) as [r'|errr].
    + destruct Hr as [Hr Hnr]. split; [|tauto].
      destruct Hmk as [-> | [-> | [-> | ->]]]; constructor; assumption.
    + destruct Hr as [Hr Herr]. split; [tauto | exact Herr].
  - destruct Hl as [Hl Herr]. split; [tauto | exact Herr].
Qed.

Lemma fixupSound_all schema e : fixupSound schema e.
Proof.
  induction e as [i ty t n nl|v ty|l IHl r IHr|l IHl r IHr|c IHc|l IHl r IHr|l IHl r IHr].
  - unfold fixupSound, fixFieldIndexes. simpl.
    destruct (findColumn schema 0 n t) as [j|] eqn:Hf.
    + apply findColumn_Some in Hf as [_ Hfirst].
      replace (j - 0) with j in Hfirst by lia. split.
      * constructor. exact Hfirst.
      * intros (t' & n' & Hin & Hno).
        rewrite fieldRefs_GetField in Hin.
        apply list_elem_of_singleton in Hin. injection Hin as -> ->.
        destruct (firstNamed_elem _ _ _ _ Hfirst) as (col & Hcol & Hnamed).
        exact (Hno col Hcol Hnamed).
    + split; [|eauto].
      exists t, n. split.
      * rewrite fieldRefs_GetField. apply list_elem_of_singleton. reflexivity.
      * eapply findColumn_None. exact Hf.
  - unfold fixupSound, fixFieldIndexes. simpl. split; [constructor|].
    intros (t & n & Hin & _). rewrite fieldRefs_Literal in Hin. inversion Hin.
  - apply (fixupSound_binary And); auto.
  - apply (fixupSound_binary Or); auto.
  - unfold fixupSound in *. unfold fixFieldIndexes in *. simpl.
    unfold missing in *. rewrite fieldRefs_Not.
    destruct (Expression_TransformUp (fixField schema) c) as [c'|err].
    + simpl. destruct IHc as [Hc Hn]. split; [constructor; exact Hc | exact Hn].
    + exact IHc.
  - apply (fixupSound_binary Equals); auto.
  - apply (fixupSound_binary GreaterThan); auto 6.
Qed.

(** The field-missing kind is the only kind of error of the fixup. *)
Lemma fixFieldIndexes_error schema e err :
  fixFieldIndexes schema e = Err err -> ErrFieldMissing_Is err = true.
Proof.
  intros Hf. pose proof (fixupSound_all schema e) as Hs.
  unfold fixupSound in Hs.
  rewrite Hf in Hs. destruct Hs as [_ [n ->]]. reflexivity.
Qed.

Lemma fixFieldIndexes_Reindexed schema e e' :
  fixFieldIndexes schema e = Ok e' -> Reindexed schema e e'.
Proof.
  intros Hf. pose proof (fixupSound_all schema e) as Hs.
  unfold fixupSound in Hs. rewrite Hf in Hs. apply Hs.
Qed.

(** C5. For every schema and every expression, the fixup either answers the
    expression in which every field reference carries the position of the
    first column of the schema with the reference's name and table tag (type,
    table, name and nullability kept), or it answers a field-missing error;
    it answers the error exactly when some field reference of the expression
    names no column of the schema. *)
Theorem fixFieldIndexes_spec (schema : Schema) (e : Expression) :
  match fixFieldIndexes schema e with
  | Ok e' => Reindexed schema e e' /\ ~ missing schema e
  | Err err => missing schema e /\ exists n, err = ErrFieldMissing n
  end.
Proof. exact (fixupSound_all schema e). Qed.

(** ** Properties of the column-usage collection *)

Lemma columnsOf_cons_eq t n pairs :
  columnsOf t ((t, n) :: pairs) = n :: columnsOf t pairs.
Proof. unfold columnsOf. rewrite filter_cons_True by reflexivity. reflexivity. Qed.

Lemma columnsOf_cons_ne t t' n pairs :
  t' <> t -> columnsOf t ((t', n) :: pairs) = columnsOf t pairs.
Proof. intros Hne. unfold columnsOf. rewrite filter_cons_False by exact Hne. reflexivity. Qed.

(** The collection from any state of the three maps in which [tableFields]
    holds the pairs of [seen]: each table gains the columns of the first
    occurrences of its pairs that are not seen yet, after the ones it has. *)
Lemma collect_from (visited : list Expression) :
  forall (u : columnUsage) (seen : list (string * string)) (t : string),
    (forall p, p ∈ tableFields u <-> p ∈ seen) ->
    fieldsByTable (foldl recordColumn u visited) !!! t =
    (fieldsByTable u !!! t) ++
    columnsOf t (firstOccurrences seen (usedColumns visited)).
Proof.
  induction visited as [|e rest IH]; intros u seen t Hseen.
  - simpl. unfold columnsOf. simpl. rewrite app_nil_r. reflexivity.
  - simpl foldl.
    destruct e as [i ty t0 n0 nl| | | | | |];
      try (simpl recordColumn; apply IH; exact Hseen).
    change (usedColumns (GetField i ty t0 n0 nl :: rest))
      with ((t0, n0) :: usedColumns rest).
    simpl recordColumn. simpl firstOccurrences.
    destruct (decide ((t0, n0) ∈ tableFields u)) as [Hin|Hnin].
    + rewrite bool_decide_eq_true_2 by exact Hin.
      rewrite bool_decide_eq_true_2 by (apply Hseen; exact Hin).
      apply IH. exact Hseen.
    + rewrite bool_decide_eq_false_2 by exact Hnin.
      rewrite bool_decide_eq_false_2 by (rewrite <- Hseen; exact Hnin).
      rewrite (IH _ ((t0, n0) :: seen)).
      * simpl fieldsByTable. destruct (decide (t0 = t)) as [->|Hne].
        -- rewrite lookup_total_insert_eq, columnsOf_cons_eq.
           rewrite <- app_assoc. reflexivity.
        -- rewrite lookup_total_insert_ne by exact Hne.
           rewrite columnsOf_cons_ne by exact Hne. reflexivity.
      * intros p. simpl tableFields. rewrite elem_of_union, elem_of_singleton.
        rewrite elem_of_cons, Hseen. reflexivity.
Qed.

Lemma firstOccurrences_elem {A} `{EqDecision A} (l : list A) :
  forall seen x, x ∈ firstOccurrences seen l <-> x ∈ l /\ x ∉ seen.
Proof.
  induction l as [|y rest IH]; intros seen x; simpl.
  - rewrite elem_of_nil. tauto.
  - destruct (decide (y ∈ seen)) as [Hin|Hnin].
    + rewrite bool_decide_eq_true_2 by exact Hin.
      rewrite IH, elem_of_cons. split.
      * tauto.
      * intros [[->|Hx] Hn]; [contradiction | tauto].
    + rewrite bool_decide_eq_false_2 by exact Hnin.
      rewrite elem_of_cons, IH, !elem_of_cons.
      destruct (decide (x = y)) as [->|Hne]; tauto.
Qed.

Lemma firstOccurrences_NoDup {A} `{EqDecision A} (l : list A) :
  forall seen, NoDup (firstOccurrences seen l).
Proof.
  induction l as [|y rest IH]; intros seen; simpl.
  - constructor.
  - destruct (bool_decide (y ∈ seen)); [apply IH|].
    constructor; [|apply IH].
    rewrite firstOccurrences_elem, elem_of_cons. tauto.
Qed.

Lemma columnsOf_elem t n pairs : n ∈ columnsOf t pairs <-> (t, n) ∈ pairs.
Proof.
  unfold columnsOf. rewrite list_elem_of_fmap. split.
  - intros ([t' n'] & -> & Hin). apply list_elem_of_filter in Hin as [Ht Hin].
    simpl in Ht. subst t'. exact Hin.
  - intros Hin. exists (t, n). split; [reflexivity|].
    apply list_elem_of_filter. split; [reflexivity | exact Hin].
Qed.

Lemma columnsOf_NoDup t pairs : NoDup pairs -> NoDup (columnsOf t pairs).
Proof.
  induction 1 as [|[t' n] rest Hnin Hnd IH].
  - constructor.
  - destruct (decide (t' = t)) as [->|Hne].
    + rewrite columnsOf_cons_eq. constructor; [|exact IH].
      rewrite columnsOf_elem. exact Hnin.
    + rewrite columnsOf_cons_ne by exact Hne. exact IH.
Qed.

(** C7. The column-usage collection records, for each table tag, the columns
    of the field references among the visited expressions, keyed by the
    (table, column) pair: the first occurrence of each pair, in the order of
    the visit, is kept, and every later occurrence of the pair is ignored.
    The list of a table is therefore free of duplicates and holds exactly
    the columns that some visited field reference names for that table. *)
Theorem collectColumns_first_occurrences
    (visited : list Expression) (t : string) :
  fieldsByTable (collectColumns visited) !!! t =
    columnsOf t (firstOccurrences [] (usedColumns visited)) /\
  NoDup (fieldsByTable (collectColumns visited) !!! t) /\
  forall n, n ∈ fieldsByTable (collectColumns visited) !!! t <->
            (t, n) ∈ usedColumns visited.
Proof.
  assert (Heq : fieldsByTable (collectColumns visited) !!! t =
                columnsOf t (firstOccurrences [] (usedColumns visited))).
  { unfold collectColumns.
    rewrite (collect_from visited noColumns [] t).
    - simpl. rewrite lookup_total_empty. reflexivity.
    - intros p. simpl. rewrite elem_of_nil. set_solver. }
  rewrite Heq. split; [reflexivity|]. split.
  - apply columnsOf_NoDup, firstOccurrences_NoDup.
  - intros n. rewrite columnsOf_elem, firstOccurrences_elem, elem_of_nil. tauto.
Qed.

(** ** Properties of the placeholder and of the early exits *)

(** C8. The placeholder of an unresolved table is never resolved, has no
    children and no schema, and its [RowIter] answers the unresolved-table
    error and no row sequence, whatever the context. *)
Theorem UnresolvedTable_contract
    {T : Type} `{Table T} (name : string) :
  Resolved (UnresolvedTable name : Node T) = false /\
  Children (UnresolvedTable name : Node T) = [] /\
  NodeSchema (UnresolvedTable name : Node T) = [] /\
  forall (Ctx Iter : Type) (ctx : Ctx),
    UnresolvedTableNode.RowIter (Iter := Iter) name ctx = Err ErrUnresolvedTable.
Proof. repeat split. Qed.

(** C9. On a node that is not resolved, and on an insert or create-index
    node, the rule answers the node itself and no error, and does nothing to
    the world: no index assignment, no release. *)
Theorem pushdown_skips
    {T : Type} `{Table T} (a : Analyzer T) (n : Node T) :
  Resolved n = false \/ isInsertOrCreateIndex n = true ->
  pushdown a n = (Ok n, []).
Proof.
  intros [Hres|Hkind]; unfold pushdown.
  - rewrite Hres. reflexivity.
  - rewrite Hkind. destruct (negb (Resolved n)); reflexivity.
Qed.

(** The early exit on a filter over an unresolved table, with an index
    assignment that would fail. *)
Lemma pushdown_skips_witness :
  (Resolved Scenario.unresolved = false \/
   isInsertOrCreateIndex Scenario.unresolved = true) /\
  pushdown Scenario.failing Scenario.unresolved = (Ok Scenario.unresolved, []).
Proof.
  split; [left; reflexivity | apply pushdown_skips; left; reflexivity].
Defined.

Example insert_is_left_alone :
  pushdown Scenario.failing Scenario.insert = (Ok Scenario.insert, []).
Proof. reflexivity. Qed.

(** ** Properties of the rewrite *)

Lemma fixOverSchemas_firstFixed schemas e :
  fixOverSchemas schemas e = Ok (default e (firstFixed schemas e)).
Proof.
  induction schemas as [|schema rest IH]; simpl.
  - reflexivity.
  - destruct (fixFieldIndexes schema e) as [fixed|err] eqn:Hf.
    + reflexivity.
    + rewrite (fixFieldIndexes_error _ _ _ Hf). exact IH.
Qed.

(** C2, as stated, fails: the projection of [t.x] over the table [p] owns an
    expression for which the schema of the only child yields the
    field-missing failure, and the rule answers the plan, not an error. *)
Lemma exhausted_schemas_do_not_abort :
  let schemas := map NodeSchema (Children Scenario.stray) in
  schemas = [[Scenario.p_b]] /\
  Forall (fun schema =>
            fixFieldIndexes schema Scenario.ref_t_x = Err (ErrFieldMissing "x"))
         schemas /\
  fixOverSchemas schemas Scenario.ref_t_x = Ok Scenario.ref_t_x /\
  pushdown Scenario.noIndexes Scenario.stray =
    (Ok Scenario.stray, [AssignIndexes]).
Proof.
  cbv zeta. split; [reflexivity|]. split; [|split; reflexivity].
  repeat constructor.
Qed.

(** The same on a join: neither child schema alone resolves the condition
    [p.b = q.b], the condition comes back unchanged from the search, and the
    join then fixes it against its own schema. *)
Example exhausted_schemas_on_join :
  let cond := Equals Scenario.ref_p_b Scenario.ref_q_b in
  let schemas := map NodeSchema (Children Scenario.plainJoin) in
  Forall (fun schema => isErr (fixFieldIndexes schema cond) = true) schemas /\
  fixOverSchemas schemas cond = Ok cond /\
  pushdown Scenario.noIndexes Scenario.plainJoin =
    (Ok (InnerJoin (ResolvedTable Scenario.p) (ResolvedTable Scenario.p')
           (Equals (GetField 0 Int64 "p" "b" false)
                   (GetField 1 Int64 "q" "b" false))),
     [AssignIndexes]).
Proof.
  cbv zeta. split; [|split; reflexivity]. repeat constructor.
Qed.

(** The search on one expression: the result of the first schema for which
    the fixup succeeds is the answer, a field-missing failure of one schema
    advances to the next, and when every schema fails the expression is
    answered as it is; the search never answers an error. *)
Lemma fixOverSchemas_never_fails
    (schemas : list Schema) (e : Expression) :
  fixOverSchemas schemas e =
    Ok (match firstFixed schemas e with
        | Some fixed => fixed
        | None => e
        end).
Proof.
  rewrite fixOverSchemas_firstFixed. destruct (firstFixed schemas e); reflexivity.
Qed.

Lemma fixFieldIndexesOnExpressions_Reindexed schema es :
  forall fixed,
    fixFieldIndexesOnExpressions schema es = Ok fixed ->
    Forall2 (Reindexed schema) es fixed.
Proof.
  induction es as [|e rest IH]; intros fixed Hf; simpl in Hf.
  - injection Hf as <-. constructor.
  - destruct (fixFieldIndexes schema e) as [e'|] eqn:He; [|discriminate].
    destruct (fixFieldIndexesOnExpressions schema rest) as [rest'|];
      [|discriminate].
    injection Hf as <-. constructor.
    + apply fixFieldIndexes_Reindexed. exact He.
    + apply IH. reflexivity.
Qed.

Lemma pushProjection_projected {T : Type} `{Table T}
    (fields : gmap string (list string)) (node table : T) st :
  pushProjection fields node table st = (Ok (projected fields node table), st).
Proof.
  unfold pushProjection, projected. destruct (isProjectedTable table); reflexivity.
Qed.

(** The index step answers the indexed table and only appends handles. *)
Lemma pushIndex_indexed {T : Type} `{Table T}
    (assigned : gmap string indexLookup) (node table : T) st :
  exists more,
    pushIndex assigned node table st =
      (Ok (indexed assigned node table),
       mkState (handledFilters st) (queryIndexes st ++ more)).
Proof.
  unfold pushIndex, indexed. destruct (isIndexableTable table).
  - destruct (assigned !! TableName node) as [l|].
    + exists (indexes l). reflexivity.
    + exists []. rewrite app_nil_r. destruct st; reflexivity.
  - exists []. rewrite app_nil_r. destruct st; reflexivity.
Qed.

(** C3. For a table with the filter capability, the rewrite of its node
    fixes the filters the table reports as handled against the schema of the
    node as it was found, before any projection, and installs the fixed
    filters with [WithFilters]; projection and index lookup are applied to
    the table that results.  When the fixup fails the rewrite answers that
    error. *)
Theorem handled_filters_fixed_on_original_schema
    {T : Type} `{Table T}
    (fields : gmap string (list string))
    (filters : gmap string (list Expression))
    (assigned : gmap string indexLookup)
    (t : T) (st : pushdownState) :
  isFilteredTable t = true ->
  let handled := HandledFilters t (filters !!! TableName t) in
  match TransformUp (rewriteNode fields filters assigned)
          (ResolvedTable t) st with
  | (Ok node, _) =>
      exists fixed,
        fixFieldIndexesOnExpressions (TableSchema t) handled = Ok fixed /\
        Forall2 (Reindexed (TableSchema t)) handled fixed /\
        node = ResolvedTable
                 (indexed assigned t (projected fields t (WithFilters t fixed)))
  | (Err err, _) =>
      fixFieldIndexesOnExpressions (TableSchema t) handled = Err err
  end.
Proof.
  intros Hft handled. simpl TransformUp.
  unfold rewriteNode, rewriteTable, bind, pushFilters.
  rewrite Hft. fold handled.
  destruct (fixFieldIndexesOnExpressions (TableSchema t) handled)
    as [fixed|err] eqn:Hfix; [|reflexivity].
  rewrite pushProjection_projected.
  destruct (pushIndex_indexed assigned t (projected fields t (WithFilters t fixed))
              (mkState (handledFilters st ++ handled) (queryIndexes st)))
    as [more Hidx].
  rewrite Hidx. unfold ret.
  exists fixed. split; [reflexivity|]. split; [|reflexivity].
  apply fixFieldIndexesOnExpressions_Reindexed. exact Hfix.
Qed.

(** The table [t] of the scenario, with the filter [t.c = 1] collected for
    it. *)
Lemma handled_filters_fixed_on_original_schema_witness :
  isFilteredTable Scenario.t = true /\
  let handled :=
    HandledFilters Scenario.t (Scenario.filters !!! TableName Scenario.t) in
  match TransformUp
          (rewriteNode Scenario.fields Scenario.filters Scenario.assigned)
          (ResolvedTable Scenario.t) (mkState [] []) with
  | (Ok node, _) =>
      exists fixed,
        fixFieldIndexesOnExpressions (TableSchema Scenario.t) handled
          = Ok fixed /\
        Forall2 (Reindexed (TableSchema Scenario.t)) handled fixed /\
        node = ResolvedTable
                 (indexed Scenario.assigned Scenario.t
                    (projected Scenario.fields Scenario.t
                       (WithFilters Scenario.t fixed)))
  | (Err err, _) =>
      fixFieldIndexesOnExpressions (TableSchema Scenario.t) handled = Err err
  end.
Proof.
  split; [reflexivity|].
  apply (handled_filters_fixed_on_original_schema
           Scenario.fields Scenario.filters Scenario.assigned
           Scenario.t (mkState [] [])).
  reflexivity.
Defined.

(** The table [t] of [Filter(t.c = 1 AND u.b = 2, Join(t, u))] after the
    pass: pruned to the columns [c] and [a], with the filter [t.c = 1]
    installed at position 2, the position of [c] among [a], [b], [c]. *)
Example filter_installed_with_original_position :
  exists t' u' cond,
    fst (pushdown Scenario.withIndexes Scenario.filtered) =
      Ok (Releaser (InnerJoin (ResolvedTable t') (ResolvedTable u') cond)
                   ["idx1"; "idx2"]) /\
    TableSchema t' = [Scenario.t_c; Scenario.t_a] /\
    mtFilters t' = [Equals (GetField 2 Int64 "t" "c" false) Scenario.one].
Proof. do 3 eexists. split; [reflexivity|]. split; reflexivity. Qed.

Lemma splitExpression_notAnd e : Forall notAnd (splitExpression e).
Proof.
  induction e; simpl; try (repeat constructor).
  apply Forall_app. split; assumption.
Qed.

Lemma splitExpression_nonempty e : splitExpression e <> [].
Proof.
  induction e; simpl; try discriminate.
  intros Happ. apply app_eq_nil in Happ as [Hl _]. contradiction.
Qed.

Lemma splitExpression_atom e : notAnd e -> splitExpression e = [e].
Proof. destruct e; simpl; intros Hn; try reflexivity. contradiction. Qed.

Lemma splitExpression_JoinAnd rest :
  forall first,
    Forall notAnd rest ->
    splitExpression (JoinAnd first rest) = splitExpression first ++ rest.
Proof.
  unfold JoinAnd.
  induction rest as [|x rest IH]; intros first Hrest; simpl.
  - rewrite app_nil_r. reflexivity.
  - apply Forall_cons in Hrest as [Hx Hrest].
    rewrite IH by exact Hrest. simpl.
    rewrite (splitExpression_atom x Hx), <- app_assoc. reflexivity.
Qed.

Lemma getUnhandledFilters_nil all : getUnhandledFilters all [] = all.
Proof.
  unfold getUnhandledFilters. induction all as [|x rest IH].
  - reflexivity.
  - rewrite filter_cons_True by (simpl; tauto). rewrite IH. reflexivity.
Qed.

Lemma getUnhandledFilters_Forall (P : Expression -> Prop) all handled :
  Forall P all -> Forall P (getUnhandledFilters all handled).
Proof.
  intros Hall. apply Forall_forall. intros x Hin.
  apply list_elem_of_filter in Hin as [_ Hin].
  rewrite Forall_forall in Hall. apply Hall. exact Hin.
Qed.

(** What the filter case answers: it never fails and leaves the captured
    variables alone. *)
Lemma rewriteFilter_filterRewritten {T : Type} (e : Expression)
    (child : Node T) st :
  exists node,
    rewriteFilter e child st = (Ok node, st) /\
    filterRewritten e child (handledFilters st) node.
Proof.
  unfold rewriteFilter, filterRewritten.
  destruct (handledFilters st) as [|h handled].
  - eexists. split; [reflexivity|].
    rewrite getUnhandledFilters_nil.
    destruct (splitExpression e) as [|u rest] eqn:Hs.
    + exfalso. exact (splitExpression_nonempty e Hs).
    + exists e. split; [reflexivity|]. split; [exact Hs | reflexivity].
  - pose proof (getUnhandledFilters_Forall notAnd (splitExpression e)
                  (h :: handled) (splitExpression_notAnd e)) as Hatoms.
    destruct (getUnhandledFilters (splitExpression e) (h :: handled))
      as [|u rest].
    + eexists. split; reflexivity.
    + eexists. split; [reflexivity|].
      exists (JoinAnd u rest). split; [reflexivity|]. split; [|reflexivity].
      apply Forall_cons in Hatoms as [Hu Hrest].
      rewrite splitExpression_JoinAnd by exact Hrest.
      rewrite (splitExpression_atom u Hu). reflexivity.
Qed.

(** C4, amended. When the bottom-up rewrite reaches a filter node, its
    child being rewritten already, and nothing is recorded as handled, the
    filter is answered untouched over the rewritten child.  Otherwise the
    predicate is split into its conjuncts and the conjuncts in the handled
    set recorded so far are dropped: when none is left the node is replaced
    by its rewritten child, and otherwise the answer is a new filter over
    that child whose predicate is the conjuncts that are left, joined again
    by conjunction.  In every case the conjuncts of the predicate of the
    answered filter are the conjuncts that are left, in order. *)
Theorem filter_node_rewritten
    {T : Type} `{Table T}
    (fields : gmap string (list string))
    (filters : gmap string (list Expression))
    (assigned : gmap string indexLookup)
    (e : Expression) (c child : Node T) (st st1 : pushdownState) :
  TransformUp (rewriteNode fields filters assigned) c st = (Ok child, st1) ->
  exists node,
    TransformUp (rewriteNode fields filters assigned) (Filter e c) st
      = (Ok node, st1) /\
    filterRewritten e child (handledFilters st1) node.
Proof.
  intros Hchild. simpl TransformUp. unfold bind. rewrite Hchild.
  simpl rewriteNode. apply rewriteFilter_filterRewritten.
Qed.

(** The filter of the scenario over its join: both conjuncts are handled by
    the tables beneath. *)
Lemma filter_node_rewritten_witness :
  exists child st1,
    TransformUp
      (rewriteNode Scenario.fields Scenario.filters Scenario.assigned)
      Scenario.join (mkState [] []) = (Ok child, st1) /\
    exists node,
      TransformUp
        (rewriteNode Scenario.fields Scenario.filters Scenario.assigned)
        Scenario.filtered (mkState [] []) = (Ok node, st1) /\
      filterRewritten
        (And (Equals Scenario.ref_t_c Scenario.one)
             (Equals Scenario.ref_u_b Scenario.two))
        child (handledFilters st1) node.
Proof.
  do 2 eexists. split; [reflexivity|].
  apply (filter_node_rewritten
           Scenario.fields Scenario.filters Scenario.assigned).
  reflexivity.
Defined.

(** A filter of which one conjunct is handled keeps the other two, joined
    again; a filter whose conjuncts are all handled gives way to its
    child. *)
Example filter_keeps_unhandled :
  let a := Equals Scenario.ref_t_a Scenario.one in
  let b := Equals Scenario.ref_u_b Scenario.two in
  let c := Equals Scenario.ref_t_c Scenario.two in
  let child : Node memTable := ResolvedTable Scenario.t in
  rewriteFilter (And a (And b c)) child (mkState [b] []) =
    (Ok (Filter (And a c) child), mkState [b] []) /\
  rewriteFilter (And a (And b c)) child (mkState [c; a; b] []) =
    (Ok child, mkState [c; a; b] []) /\
  rewriteFilter (And a (And b c)) child (mkState [] []) =
    (Ok (Filter (And a (And b c)) child), mkState [] []).
Proof. repeat split. Qed.

Lemma DeepEqual_eq a b : DeepEqual a b = true <-> a = b.
Proof.
  unfold DeepEqual. destruct (Expression_eq_dec a b); split; intros; congruence.
Qed.

(** The conjuncts that are left are those that are not handled. *)
Lemma getUnhandledFilters_elem all handled x :
  x ∈ getUnhandledFilters all handled <-> x ∈ all /\ x ∉ handled.
Proof.
  unfold getUnhandledFilters. rewrite list_elem_of_filter.
  assert (Hex : Is_true (existsb (DeepEqual x) handled) <-> x ∈ handled).
  { rewrite Is_true_true, existsb_exists. split.
    - intros (y & Hin & Heq). apply DeepEqual_eq in Heq. subst y.
      apply list_elem_of_In. exact Hin.
    - intros Hin. exists x. split; [apply list_elem_of_In; exact Hin|].
      apply DeepEqual_eq. reflexivity. }
  rewrite Hex. tauto.
Qed.

(** ** Properties of the error exit *)

Lemma grows_bind {A B} (m : Rewrite A) (k : A -> Rewrite B) :
  grows m -> (forall a, grows (k a)) -> grows (bind m k).
Proof.
  intros Hm Hk st r st' Hrun. unfold bind in Hrun.
  destruct (m st) as [[a|err] st1] eqn:Hm1.
  - destruct (Hm _ _ _ Hm1) as [more1 H1].
    destruct (Hk a _ _ _ Hrun) as [more2 H2].
    exists (more1 ++ more2). rewrite H2, H1, app_assoc. reflexivity.
  - injection Hrun as <- <-. exact (Hm _ _ _ Hm1).
Qed.

Lemma grows_same {A} (m : Rewrite A) :
  (forall st, snd (m st) = st) -> grows m.
Proof.
  intros Hsame st r st' Hrun. exists []. rewrite app_nil_r.
  specialize (Hsame st). rewrite Hrun in Hsame. simpl in Hsame.
  subst st'. reflexivity.
Qed.

Section Grows.

Context {T : Type} `{Table T}.
Variable fields : gmap string (list string).
Variable filters : gmap string (list Expression).
Variable assigned : gmap string indexLookup.

Lemma rewriteNode_grows (node : Node T) :
  grows (rewriteNode fields filters assigned node).
Proof.
  assert (Hother : forall n, grows (rewriteOther n)).
  { intros n. apply grows_same. intros st. unfold rewriteOther.
    destruct (TransformExpressions _ n) as [[n'|err]|]; try reflexivity;
      destruct (bool_decide _); try reflexivity.
    destruct n'; try reflexivity.
    destruct (fixFieldIndexes _ _); reflexivity. }
  destruct node; try apply Hother.
  - unfold rewriteNode, rewriteTable.
    repeat (apply grows_bind; [|intros ?]).
    + intros st r st' Hrun. unfold pushFilters in Hrun.
      exists []. rewrite app_nil_r.
      destruct (isFilteredTable table).
      * destruct (fixFieldIndexesOnExpressions _ _);
          injection Hrun as <- <-; reflexivity.
      * injection Hrun as <- <-; reflexivity.
    + apply grows_same. intros st. rewrite pushProjection_projected.
      reflexivity.
    + intros st r st' Hrun.
      destruct (pushIndex_indexed assigned table a0 st) as [more Hidx].
      rewrite Hidx in Hrun. injection Hrun as <- <-.
      exists more. reflexivity.
    + apply grows_same. reflexivity.
  - apply grows_same. intros st.
    destruct (rewriteFilter_filterRewritten expression node st)
      as (n' & Hrun & _).
    simpl. rewrite Hrun. reflexivity.
Qed.

Lemma TransformUp_grows_with (f : Node T -> Rewrite (Node T)) (n : Node T) :
  (forall node, grows (f node)) -> grows (TransformUp f n).
Proof.
  intros Hf.
  induction n; simpl TransformUp;
    first
      [ apply Hf
      | apply grows_bind;
        [ assumption
        | intros ?;
          first
            [ apply Hf
            | apply grows_bind; [ assumption | intros ?; apply Hf ] ] ] ].
Qed.

(** Whatever the rewrite answers, a plan or an error, the handles recorded
    at that point are those recorded before, followed by the new ones:
    nothing recorded is lost on the way to an abort. *)
Lemma TransformUp_grows (n : Node T) :
  grows (TransformUp (rewriteNode fields filters assigned) n).
Proof. apply TransformUp_grows_with. exact rewriteNode_grows. Qed.

End Grows.

(** C6. When the index assignment fails, or the rewrite traversal fails
    after recording the handles [consumed], the rule answers that error and
    no plan, having released every handle of [consumed], in order, before
    it returns. *)
Theorem pushdown_error_releases
    {T : Type} `{Table T}
    (a : Analyzer T) (n : Node T) (err : error) (consumed : list Index) :
  Resolved n = true ->
  isInsertOrCreateIndex n = false ->
  (assignIndexes a n = Err err /\ consumed = []) \/
  (exists assigned st,
      assignIndexes a n = Ok assigned /\
      transform n assigned = (Err err, st) /\
      consumed = queryIndexes st) ->
  pushdown a n = (Err err, AssignIndexes :: release consumed).
Proof.
  intros Hres Hkind Hfail. unfold pushdown. rewrite Hres, Hkind. simpl.
  destruct Hfail as [[Hassign ->]|(assigned & st & Hassign & Hrun & ->)];
    rewrite Hassign; [reflexivity|].
  rewrite Hrun. reflexivity.
Qed.

(** The rewrite of [Filter(u.z = 2, Join(t, u))] records the two handles of
    [t] and then fails at [u]. *)
Lemma pushdown_error_releases_witness :
  Resolved Scenario.broken = true /\
  isInsertOrCreateIndex Scenario.broken = false /\
  transform Scenario.broken Scenario.assigned =
    (Err (ErrFieldMissing "z"),
     mkState [Equals Scenario.ref_u_z Scenario.two] ["idx1"; "idx2"]) /\
  pushdown Scenario.withIndexes Scenario.broken =
    (Err (ErrFieldMissing "z"),
     [AssignIndexes; ReleaseIndex "idx1"; ReleaseIndex "idx2"]).
Proof.
  split; [reflexivity|]. split; [reflexivity|]. split; [reflexivity|].
  apply (pushdown_error_releases Scenario.withIndexes Scenario.broken
           (ErrFieldMissing "z") ["idx1"; "idx2"]);
    [reflexivity | reflexivity |].
  right. exists Scenario.assigned. eexists.
  split; [reflexivity|]. split; reflexivity.
Defined.

Example pushdown_error_of_assignment :
  pushdown Scenario.failing Scenario.filtered =
    (Err (ErrOther "no catalog"), [AssignIndexes]).
Proof. reflexivity. Qed.

(** ** Properties of the releaser *)

Module ReleaseIterFacts.

Import ReleaseIter.

(** One call on the row sequence: the handles and the count of closes of
    the wrapped iterator stay as they are; the callback runs when the
    call is a close or a failed next and [sync.Once] has not run yet, and
    not otherwise. *)
Lemma call_step (c : Call) (i : releaseIter) (w : World) :
  let '(a, i', w') := call c i w in
  release_ i' = release_ i /\
  closeCalls (child i') = closeCalls (child i) /\
  nilClose a /\
  if once i then once i' = true /\ w' = w
  else if ends a then once i' = true /\ w' = Release (release_ i) w
  else once i' = false /\ w' = w.
Proof.
  destruct i as [ch handles done]. destruct c; simpl.
  - unfold Next, RowIter_Next. simpl.
    destruct (answers ch) as [|[row|err] rest]; simpl;
      unfold Close, once_Do; simpl; destruct done; simpl; auto.
  - unfold Close, once_Do. simpl. destruct done; simpl; auto.
Qed.

Lemma consume_steps (calls : list Call) :
  forall (i : releaseIter) (w : World),
    let '(answers, i', w') := consume calls i w in
    release_ i' = release_ i /\
    closeCalls (child i') = closeCalls (child i) /\
    Forall nilClose answers /\
    if once i then once i' = true /\ w' = w
    else if existsb ends answers
         then once i' = true /\ w' = Release (release_ i) w
         else once i' = false /\ w' = w.
Proof.
  induction calls as [|c rest IH]; intros i w; simpl.
  - repeat split; [constructor|]. destruct (once i); auto.
  - pose proof (call_step c i w) as Hstep.
    destruct (call c i w) as [[a i1] w1].
    specialize (IH i1 w1).
    destruct (consume rest i1 w1) as [[answers i2] w2].
    destruct Hstep as (Hrel1 & Hcl1 & Hnil1 & Hw1).
    destruct IH as (Hrel2 & Hcl2 & Hnil2 & Hw2).
    split; [congruence|]. split; [congruence|].
    split; [constructor; assumption|].
    simpl existsb. destruct (once i).
    + destruct Hw1 as [Ho1 ->]. rewrite Ho1 in Hw2. exact Hw2.
    + destruct (ends a); simpl.
      * destruct Hw1 as [Ho1 ->]. rewrite Ho1 in Hw2.
        destruct Hw2 as [Ho2 ->]. auto.
      * destruct Hw1 as [Ho1 ->]. rewrite Ho1, Hrel1 in Hw2. exact Hw2.
Qed.

End ReleaseIterFacts.



(** Rows, then end of rows, then two closes and one more [Next]: the
    handles are released once.  A close before any row: once.  Rows only:
    not yet. *)
Example release_once_scenarios :
  let w0 := ReleaseIter.mkWorld 0 [] in
  let it := ReleaseIter.mkRowIter [Ok [1%Z]; Ok [2%Z]] 0 0 in
  let i := ReleaseIter.mkReleaseIter it ["idx1"; "idx2"] false in
  let C := ReleaseIter.CallClose in
  let N := ReleaseIter.CallNext in
  snd (ReleaseIter.consume [N; N; N; C; C; N] i w0)
    = ReleaseIter.mkWorld 1 ["idx1"; "idx2"] /\
  snd (ReleaseIter.consume [C; N; C] i w0)
    = ReleaseIter.mkWorld 1 ["idx1"; "idx2"] /\
  snd (ReleaseIter.consume [N; N] i w0) = w0 /\
  ReleaseIter.RowIter_ ["idx1"; "idx2"] (Err (ErrOther "scan failed")) w0
    = (Err (ErrOther "scan failed"), ReleaseIter.mkWorld 1 ["idx1"; "idx2"]).
Proof. repeat split. Qed.

(** C10. Closing the releasing row sequence answers nil, whatever its
    state, and no sequence of [Next] and [Close] calls on it, failing or
    not, ever calls [Close] on the wrapped row iterator. *)
Theorem Close_is_nil_and_child_is_never_closed
    (i : ReleaseIter.releaseIter) (calls : list ReleaseIter.Call)
    (w : ReleaseIter.World) :
  fst (fst (ReleaseIter.Close i w)) = None /\
  let '(answers, i', _) := ReleaseIter.consume calls i w in
  Forall ReleaseIter.nilClose answers /\
  ReleaseIter.closeCalls (ReleaseIter.child i')
    = ReleaseIter.closeCalls (ReleaseIter.child i).
Proof.
  split.
  - unfold ReleaseIter.Close, ReleaseIter.once_Do.
    destruct (ReleaseIter.once i); reflexivity.
  - pose proof (ReleaseIterFacts.consume_steps calls i w) as Hsteps.
    destruct (ReleaseIter.consume calls i w) as [[answers i'] w'].
    destruct Hsteps as (_ & Hclose & Hnil & _). split; assumption.
Qed.


(** ** Further properties of the field-index fixup *)

Lemma fixFieldIndexes_binary (mk : Expression -> Expression -> Expression)
    schema l r :
  mk = And \/ mk = Or \/ mk = Equals \/ mk = GreaterThan ->
  fixFieldIndexes schema (mk l r) =
    match fixFieldIndexes schema l with
    | Err err => Err err
    | Ok l' =>
        match fixFieldIndexes schema r with
        | Err err => Err err
        | Ok r' => Ok (mk l' r')
        end
    end.
Proof.
  unfold fixFieldIndexes.
  intros [-> | [-> | [-> | ->]]]; simpl;
    destruct (Expression_TransformUp (fixField schema) l); try reflexivity;
    destruct (Expression_TransformUp (fixField schema) r); reflexivity.
Qed.

Lemma fixFieldIndexes_Not schema c :
  fixFieldIndexes schema (Not c) =
    match fixFieldIndexes schema c with
    | Err err => Err err
    | Ok c' => Ok (Not c')
    end.
Proof.
  unfold fixFieldIndexes. simpl.
  destruct (Expression_TransformUp (fixField schema) c); reflexivity.
Qed.

Lemma fixFieldIndexes_GetField schema i ty t n nl :
  fixFieldIndexes schema (GetField i ty t n nl) =
    match findColumn schema 0 n t with
    | Some j => Ok (GetField j ty t n nl)
    | None => Err (ErrFieldMissing n)
    end.
Proof. reflexivity. Qed.

(** An induction principle for the fixup: a property of its answers that
    holds at the leaves and is kept by every operator holds everywhere. *)
Lemma fixFieldIndexes_ind_on
    (schema : Schema) (P : Expression -> result Expression -> Prop) :
  (forall i ty t n nl,
      P (GetField i ty t n nl)
        (fixFieldIndexes schema (GetField i ty t n nl))) ->
  (forall v ty, P (Literal v ty) (Ok (Literal v ty))) ->
  (forall mk l r,
      mk = And \/ mk = Or \/ mk = Equals \/ mk = GreaterThan ->
      P l (fixFieldIndexes schema l) -> P r (fixFieldIndexes schema r) ->
      P (mk l r) (fixFieldIndexes schema (mk l r))) ->
  (forall c, P c (fixFieldIndexes schema c) ->
             P (Not c) (fixFieldIndexes schema (Not c))) ->
  forall e, P e (fixFieldIndexes schema e).
Proof.
  intros Hget Hlit Hbin Hnot.
  induction e; [apply Hget | apply Hlit | | | apply Hnot; assumption | | ];
    apply Hbin; auto 6.
Qed.

Lemma walkExpression_binary (mk : Expression -> Expression -> Expression) l r :
  mk = And \/ mk = Or \/ mk = Equals \/ mk = GreaterThan ->
  walkExpression (mk l r) = mk l r :: walkExpression l ++ walkExpression r.
Proof. intros [-> | [-> | [-> | ->]]]; reflexivity. Qed.

Lemma binary_not_GetField (mk : Expression -> Expression -> Expression) l r
    i ty t n nl :
  mk = And \/ mk = Or \/ mk = Equals \/ mk = GreaterThan ->
  GetField i ty t n nl <> mk l r.
Proof. intros [-> | [-> | [-> | ->]]]; discriminate. Qed.

Lemma fixFieldIndexes_wellIndexed (schema : Schema) (e e' : Expression) :
  fixFieldIndexes schema e = Ok e' -> wellIndexed schema e'.
Proof.
  intros Hfix.
  { revert e' Hfix.
    apply (fixFieldIndexes_ind_on schema
             (fun e r => forall e', r = Ok e' -> wellIndexed schema e')).
    - intros i ty t n nl e' Hf. rewrite fixFieldIndexes_GetField in Hf.
      destruct (findColumn schema 0 n t) as [j|] eqn:Hfind; [|discriminate].
      injection Hf as <-.
      apply findColumn_Some in Hfind as [_ [Hcol _]].
      replace (j - 0) with j in Hcol by lia.
      intros i' ty' t' n' nl' Hin. simpl in Hin.
      apply list_elem_of_singleton in Hin.
      injection Hin as -> -> -> -> ->. exact Hcol.
    - intros v ty e' Hf. injection Hf as <-.
      intros i ty' t n nl Hin. simpl in Hin.
      apply list_elem_of_singleton in Hin. discriminate.
    - intros mk l r Hmk IHl IHr e' Hf.
      rewrite (fixFieldIndexes_binary mk schema l r Hmk) in Hf.
      destruct (fixFieldIndexes schema l) as [l'|]; [|discriminate].
      destruct (fixFieldIndexes schema r) as [r'|]; [|discriminate].
      injection Hf as <-.
      intros i ty t n nl Hin.
      rewrite (walkExpression_binary mk l' r' Hmk) in Hin.
      apply elem_of_cons in Hin as [Heq|Hin].
      + exfalso. exact (binary_not_GetField mk l' r' _ _ _ _ _ Hmk Heq).
      + apply elem_of_app in Hin as [Hin|Hin].
        * exact (IHl l' eq_refl _ _ _ _ _ Hin).
        * exact (IHr r' eq_refl _ _ _ _ _ Hin).
    - intros c IHc e' Hf. rewrite fixFieldIndexes_Not in Hf.
      destruct (fixFieldIndexes schema c) as [c'|]; [|discriminate].
      injection Hf as <-.
      intros i ty t n nl Hin. simpl in Hin.
      apply elem_of_cons in Hin as [Heq|Hin]; [discriminate|].
      exact (IHc c' eq_refl _ _ _ _ _ Hin). }
Qed.

(** X1. When the fixup succeeds, every field reference of its answer
    carries a position inside the schema, and the column at that position
    has the name and the table tag of the reference. *)
Theorem fixFieldIndexes_well_indexed
    (schema : Schema) (e e' : Expression) :
  fixFieldIndexes schema e = Ok e' ->
  wellIndexed schema e' /\
  forall i ty t n nl,
    GetField i ty t n nl ∈ walkExpression e' -> i < length schema.
Proof.
  intros Hfix.
  pose proof (fixFieldIndexes_wellIndexed schema e e' Hfix) as Hwell.
  split; [exact Hwell|].
  intros i ty t n nl Hin.
  destruct (Hwell _ _ _ _ _ Hin) as (col & Hcol & _).
  eapply lookup_lt_Some. exact Hcol.
Qed.

(** The condition of the scenario's join against the columns of [t]
    followed by those of [u]. *)
Lemma fixFieldIndexes_well_indexed_witness :
  let schema := [Scenario.t_a; Scenario.t_b; Scenario.t_c; Scenario.u_b] in
  let cond := Equals Scenario.ref_t_c Scenario.ref_u_b in
  let fixed := Equals (GetField 2 Int64 "t" "c" false)
                      (GetField 3 Int64 "u" "b" false) in
  fixFieldIndexes schema cond = Ok fixed /\
  wellIndexed schema fixed /\
  forall i ty t n nl,
    GetField i ty t n nl ∈ walkExpression fixed -> i < length schema.
Proof.
  cbv zeta. split; [reflexivity|].
  apply (fixFieldIndexes_well_indexed
           [Scenario.t_a; Scenario.t_b; Scenario.t_c; Scenario.u_b]
           (Equals Scenario.ref_t_c Scenario.ref_u_b)).
  reflexivity.
Defined.

Lemma eraseIndexes_binary (mk : Expression -> Expression -> Expression) l r :
  mk = And \/ mk = Or \/ mk = Equals \/ mk = GreaterThan ->
  eraseIndexes (mk l r) = mk (eraseIndexes l) (eraseIndexes r).
Proof. intros [-> | [-> | [-> | ->]]]; reflexivity. Qed.

Lemma fixFieldIndexes_eraseIndexes schema e :
  fixFieldIndexes schema (eraseIndexes e) = fixFieldIndexes schema e.
Proof.
  apply (fixFieldIndexes_ind_on schema
           (fun e r => fixFieldIndexes schema (eraseIndexes e) = r)).
  - reflexivity.
  - reflexivity.
  - intros mk l r Hmk IHl IHr.
    rewrite (eraseIndexes_binary mk l r Hmk).
    rewrite !(fixFieldIndexes_binary mk) by exact Hmk.
    rewrite IHl, IHr. reflexivity.
  - intros c IHc. simpl eraseIndexes. rewrite !fixFieldIndexes_Not, IHc.
    reflexivity.
Qed.

Lemma fixFieldIndexes_keeps_shape schema e :
  forall e', fixFieldIndexes schema e = Ok e' ->
             eraseIndexes e' = eraseIndexes e.
Proof.
  apply (fixFieldIndexes_ind_on schema
           (fun e r => forall e', r = Ok e' ->
                                  eraseIndexes e' = eraseIndexes e)).
  - intros i ty t n nl e' Hf. rewrite fixFieldIndexes_GetField in Hf.
    destruct (findColumn schema 0 n t); [|discriminate].
    injection Hf as <-. reflexivity.
  - intros v ty e' Hf. injection Hf as <-. reflexivity.
  - intros mk l r Hmk IHl IHr e' Hf.
    rewrite (fixFieldIndexes_binary mk schema l r Hmk) in Hf.
    destruct (fixFieldIndexes schema l) as [l'|]; [|discriminate].
    destruct (fixFieldIndexes schema r) as [r'|]; [|discriminate].
    injection Hf as <-.
    rewrite !(eraseIndexes_binary mk) by exact Hmk.
    rewrite (IHl l' eq_refl), (IHr r' eq_refl). reflexivity.
  - intros c IHc e' Hf. rewrite fixFieldIndexes_Not in Hf.
    destruct (fixFieldIndexes schema c) as [c'|]; [|discriminate].
    injection Hf as <-. simpl. rewrite (IHc c' eq_refl). reflexivity.
Qed.

(** X2. The fixup disregards the indexes the field references carry: two
    expressions that differ in those indexes only get the same answer, be it
    an expression or an error. *)
Theorem fixFieldIndexes_ignores_indexes
    (schema : Schema) (e1 e2 : Expression) :
  eraseIndexes e1 = eraseIndexes e2 ->
  fixFieldIndexes schema e1 = fixFieldIndexes schema e2.
Proof.
  intros Hsame.
  rewrite <- (fixFieldIndexes_eraseIndexes schema e1).
  rewrite <- (fixFieldIndexes_eraseIndexes schema e2).
  rewrite Hsame. reflexivity.
Qed.

(** The reference to [t.c] with the stale index 7 and with the index 0. *)
Lemma fixFieldIndexes_ignores_indexes_witness :
  let schema := [Scenario.t_a; Scenario.t_b; Scenario.t_c] in
  let stale := Equals (GetField 7 Int64 "t" "c" false) Scenario.one in
  let fresh := Equals (GetField 0 Int64 "t" "c" false) Scenario.one in
  eraseIndexes stale = eraseIndexes fresh /\
  fixFieldIndexes schema stale = fixFieldIndexes schema fresh.
Proof.
  cbv zeta. split; [reflexivity|].
  apply fixFieldIndexes_ignores_indexes. reflexivity.
Defined.

(** X3. The fixup is idempotent: fixing up its own answer against the same
    schema gives that answer again. *)
Theorem fixFieldIndexes_idempotent
    (schema : Schema) (e e' : Expression) :
  fixFieldIndexes schema e = Ok e' ->
  fixFieldIndexes schema e' = Ok e'.
Proof.
  intros Hfix. rewrite <- Hfix.
  rewrite <- (fixFieldIndexes_eraseIndexes schema e').
  rewrite (fixFieldIndexes_keeps_shape schema e e' Hfix).
  apply fixFieldIndexes_eraseIndexes.
Qed.

Lemma fixFieldIndexes_idempotent_witness :
  let schema := [Scenario.t_a; Scenario.t_b; Scenario.t_c] in
  let fixed := Equals (GetField 2 Int64 "t" "c" false) Scenario.one in
  fixFieldIndexes schema (Equals (GetField 9 Int64 "t" "c" false) Scenario.one)
    = Ok fixed /\
  fixFieldIndexes schema fixed = Ok fixed.
Proof.
  cbv zeta. split; [reflexivity|].
  apply (fixFieldIndexes_idempotent
           [Scenario.t_a; Scenario.t_b; Scenario.t_c]
           (Equals (GetField 9 Int64 "t" "c" false) Scenario.one)).
  reflexivity.
Defined.

Lemma findColumn_app schema more n t :
  forall i j,
    findColumn schema i n t = Some j ->
    findColumn (schema ++ more) i n t = Some j.
Proof.
  induction schema as [|col rest IH]; intros i j Hf; simpl in *.
  - discriminate.
  - destruct (bool_decide (n = Name col) && bool_decide (t = Source col)).
    + exact Hf.
    + apply IH. exact Hf.
Qed.

Lemma findColumn_from schema n t :
  forall i k,
    findColumn schema (k + i) n t = (fun j => k + j) <$> findColumn schema i n t.
Proof.
  induction schema as [|col rest IH]; intros i k; simpl.
  - reflexivity.
  - destruct (bool_decide (n = Name col) && bool_decide (t = Source col)).
    + reflexivity.
    + replace (S (k + i)) with (k + S i) by lia. apply IH.
Qed.

Lemma findColumn_skip pre schema n t :
  (forall col, col ∈ pre -> ~ named t n col) ->
  forall i,
    findColumn (pre ++ schema) i n t = findColumn schema (length pre + i) n t.
Proof.
  induction pre as [|col rest IH]; intros Hno i; simpl.
  - reflexivity.
  - destruct (bool_decide (n = Name col) && bool_decide (t = Source col))
      eqn:Hm.
    + exfalso. apply andb_prop in Hm as [Hn Hs].
      apply bool_decide_eq_true_1 in Hn, Hs.
      apply (Hno col); [apply elem_of_cons; left; reflexivity|].
      split; congruence.
    + rewrite IH.
      * replace (length rest + S i) with (S (length rest + i)) by lia.
        reflexivity.
      * intros c Hin. apply Hno. apply elem_of_cons. right. exact Hin.
Qed.

(** X4. Columns appended to a schema do not disturb a fixup that succeeds
    without them: the answer against the longer schema is the same. *)
Theorem fixFieldIndexes_appended_columns
    (schema more : Schema) (e e' : Expression) :
  fixFieldIndexes schema e = Ok e' ->
  fixFieldIndexes (schema ++ more) e = Ok e'.
Proof.
  revert e'.
  apply (fixFieldIndexes_ind_on schema
           (fun e r => forall e', r = Ok e' ->
                                  fixFieldIndexes (schema ++ more) e = Ok e')).
  - intros i ty t n nl e' Hf. rewrite fixFieldIndexes_GetField in *.
    destruct (findColumn schema 0 n t) as [j|] eqn:Hfind; [|discriminate].
    rewrite (findColumn_app schema more n t 0 j Hfind). exact Hf.
  - intros v ty e' Hf. exact Hf.
  - intros mk l r Hmk IHl IHr e' Hf.
    rewrite (fixFieldIndexes_binary mk) in * by exact Hmk.
    destruct (fixFieldIndexes schema l) as [l'|]; [|discriminate].
    destruct (fixFieldIndexes schema r) as [r'|]; [|discriminate].
    rewrite (IHl l' eq_refl), (IHr r' eq_refl). exact Hf.
  - intros c IHc e' Hf. rewrite fixFieldIndexes_Not in *.
    destruct (fixFieldIndexes schema c) as [c'|]; [|discriminate].
    rewrite (IHc c' eq_refl). exact Hf.
Qed.

(** A filter on [t] against the columns of [t], and against those of the
    join of [t] and [u]. *)
Lemma fixFieldIndexes_appended_columns_witness :
  let schema := [Scenario.t_a; Scenario.t_b; Scenario.t_c] in
  let fixed := Equals (GetField 2 Int64 "t" "c" false) Scenario.one in
  fixFieldIndexes schema (Equals Scenario.ref_t_c Scenario.one) = Ok fixed /\
  fixFieldIndexes (schema ++ [Scenario.u_b])
    (Equals Scenario.ref_t_c Scenario.one) = Ok fixed.
Proof.
  cbv zeta. split; [reflexivity|].
  apply (fixFieldIndexes_appended_columns
           [Scenario.t_a; Scenario.t_b; Scenario.t_c] [Scenario.u_b]).
  reflexivity.
Defined.

Lemma unnamedIn_binary (mk : Expression -> Expression -> Expression) pre l r :
  mk = And \/ mk = Or \/ mk = Equals \/ mk = GreaterThan ->
  unnamedIn pre (mk l r) -> unnamedIn pre l /\ unnamedIn pre r.
Proof.
  intros Hmk Hno. unfold unnamedIn in *.
  rewrite (fieldRefs_binary mk l r Hmk) in Hno.
  split; intros t n col Hin; apply Hno; apply elem_of_app; auto.
Qed.

Lemma shiftIndexes_binary (mk : Expression -> Expression -> Expression) k l r :
  mk = And \/ mk = Or \/ mk = Equals \/ mk = GreaterThan ->
  shiftIndexes k (mk l r) = mk (shiftIndexes k l) (shiftIndexes k r).
Proof. intros [-> | [-> | [-> | ->]]]; reflexivity. Qed.

(** X5. Columns put in front of a schema, none of which is named by a field
    reference of the expression, move every index of a successful fixup up
    by their number: this is how the expressions of the right child of a
    join sit in the schema of the join. *)
Theorem fixFieldIndexes_prepended_columns
    (pre schema : Schema) (e e' : Expression) :
  unnamedIn pre e ->
  fixFieldIndexes schema e = Ok e' ->
  fixFieldIndexes (pre ++ schema) e = Ok (shiftIndexes (length pre) e').
Proof.
  intros Hno. revert e' Hno.
  apply (fixFieldIndexes_ind_on schema
           (fun e r => forall e', unnamedIn pre e -> r = Ok e' ->
              fixFieldIndexes (pre ++ schema) e =
                Ok (shiftIndexes (length pre) e'))).
  - intros i ty t n nl e' Hno Hf. rewrite fixFieldIndexes_GetField in *.
    rewrite findColumn_skip.
    + rewrite findColumn_from.
      destruct (findColumn schema 0 n t) as [j|]; [|discriminate].
      injection Hf as <-. reflexivity.
    + intros col Hin. apply (Hno t n col); [|exact Hin].
      rewrite fieldRefs_GetField. apply list_elem_of_singleton. reflexivity.
  - intros v ty e' _ Hf. injection Hf as <-. reflexivity.
  - intros mk l r Hmk IHl IHr e' Hno Hf.
    destruct (unnamedIn_binary mk pre l r Hmk Hno) as [Hnol Hnor].
    rewrite (fixFieldIndexes_binary mk) in * by exact Hmk.
    destruct (fixFieldIndexes schema l) as [l'|]; [|discriminate].
    destruct (fixFieldIndexes schema r) as [r'|]; [|discriminate].
    injection Hf as <-.
    rewrite (IHl l' Hnol eq_refl), (IHr r' Hnor eq_refl).
    rewrite (shiftIndexes_binary mk) by exact Hmk. reflexivity.
  - intros c IHc e' Hno Hf. rewrite fixFieldIndexes_Not in *.
    destruct (fixFieldIndexes schema c) as [c'|]; [|discriminate].
    injection Hf as <-.
    rewrite (IHc c' Hno eq_refl). reflexivity.
Qed.

(** A filter on [u] against the column of [u], and against the columns of
    the join of [t] and [u]. *)
Lemma fixFieldIndexes_prepended_columns_witness :
  let pre := [Scenario.t_a; Scenario.t_b; Scenario.t_c] in
  let e := Equals Scenario.ref_u_b Scenario.two in
  unnamedIn pre e /\
  fixFieldIndexes [Scenario.u_b] e = Ok e /\
  fixFieldIndexes (pre ++ [Scenario.u_b]) e
    = Ok (Equals (GetField 3 Int64 "u" "b" false) Scenario.two).
Proof.
  cbv zeta.
  assert (Hno : unnamedIn [Scenario.t_a; Scenario.t_b; Scenario.t_c]
                  (Equals Scenario.ref_u_b Scenario.two)).
  { intros t n col Hin Hcol [_ Hsrc].
    apply list_elem_of_singleton in Hin. injection Hin as -> ->.
    repeat (apply elem_of_cons in Hcol as [->|Hcol]; [discriminate|]).
    inversion Hcol. }
  split; [exact Hno|]. split; [reflexivity|].
  apply (fixFieldIndexes_prepended_columns
           [Scenario.t_a; Scenario.t_b; Scenario.t_c] [Scenario.u_b]
           (Equals Scenario.ref_u_b Scenario.two)
           (Equals Scenario.ref_u_b Scenario.two) Hno).
  reflexivity.
Defined.

(** X6. The fixup of a list of expressions answers the list of the fixed
    expressions, one for one and in order, when every expression can be
    fixed; otherwise it answers the error of the first expression that
    cannot, and nothing of what was fixed before it. *)
Theorem fixFieldIndexesOnExpressions_all_or_first_error
    (schema : Schema) (expressions : list Expression) :
  match fixFieldIndexesOnExpressions schema expressions with
  | Ok fixed =>
      Forall2 (fun e e' => fixFieldIndexes schema e = Ok e') expressions fixed
  | Err err =>
      exists before e after,
        expressions = before ++ e :: after /\
        Forall (fun x => isErr (fixFieldIndexes schema x) = false) before /\
        fixFieldIndexes schema e = Err err
  end.
Proof.
  induction expressions as [|e rest IH]; simpl.
  - constructor.
  - destruct (fixFieldIndexes schema e) as [e'|err] eqn:He.
    + destruct (fixFieldIndexesOnExpressions schema rest) as [rest'|err].
      * constructor; assumption.
      * destruct IH as (before & x & after & -> & Hbefore & Hx).
        exists (e :: before), x, after. split; [reflexivity|].
        split; [|exact Hx]. constructor; [|exact Hbefore].
        rewrite He. reflexivity.
    + exists [], e, rest. split; [reflexivity|]. split; [constructor|exact He].
Qed.

(** ** Further properties of the column-usage collection *)

Lemma recordColumn_inStep (u : columnUsage) (e : Expression) :
  (forall t, inStep u t) -> forall t, inStep (recordColumn u e) t.
Proof.
  intros Hu t. destruct e as [i ty t0 n0 nl| | | | | |]; try apply Hu.
  simpl. destruct (decide ((t0, n0) ∈ tableFields u)) as [Hin|Hnin].
  - rewrite bool_decide_eq_true_2 by exact Hin. apply Hu.
  - rewrite bool_decide_eq_false_2 by exact Hnin.
    destruct (Hu t) as [Hexprs Hseen]. unfold inStep. simpl.
    destruct (decide (t0 = t)) as [->|Hne].
    + rewrite !lookup_total_insert_eq. split.
      * apply Forall2_app; [exact Hexprs|].
        constructor; [|constructor]. exists i, ty, nl. reflexivity.
      * intros n. rewrite elem_of_union, elem_of_singleton, elem_of_app.
        rewrite list_elem_of_singleton, Hseen. split.
        -- intros [Heq|Hn]; [injection Heq as ->; right; reflexivity | left; exact Hn].
        -- intros [Hn| ->]; [right; exact Hn | left; reflexivity].
    + rewrite !lookup_total_insert_ne by exact Hne. split; [exact Hexprs|].
      intros n. rewrite elem_of_union, elem_of_singleton, <- Hseen. split.
      * intros [Heq|Hn]; [congruence | exact Hn].
      * intros Hn. right. exact Hn.
Qed.

(** X7. Whatever expressions are visited, the three maps of the column
    usage stay in step: for every table the recorded expressions are the
    field references to the recorded columns, one for one and in order, and
    the set of seen pairs holds exactly the recorded columns. *)
Theorem collectColumns_maps_in_step
    (visited : list Expression) (t : string) :
  Forall2 (fun e n => refersTo t n e)
          (exprsByTable (collectColumns visited) !!! t)
          (fieldsByTable (collectColumns visited) !!! t) /\
  forall n, (t, n) ∈ tableFields (collectColumns visited) <->
            n ∈ fieldsByTable (collectColumns visited) !!! t.
Proof.
  change (inStep (collectColumns visited) t). revert t.
  unfold collectColumns.
  assert (Hfold : forall u, (forall t, inStep u t) ->
                            forall t, inStep (foldl recordColumn u visited) t).
  { induction visited as [|e rest IH]; intros u Hu; simpl.
    - exact Hu.
    - apply IH. apply recordColumn_inStep. exact Hu. }
  apply Hfold. intros t. unfold inStep. simpl.
  rewrite !lookup_total_empty. split; [constructor|].
  intros n. rewrite elem_of_nil. set_solver.
Qed.

(** ** Further properties of the rewrite *)

Section Traversal.

Context {T : Type} `{Table T}.
Variable fields : gmap string (list string).
Variable filters : gmap string (list Expression).
Variable assigned : gmap string indexLookup.

Lemma rewriteOther_state (node : Node T) st :
  snd (rewriteOther node st) = st.
Proof.
  unfold rewriteOther.
  destruct (TransformExpressions _ node) as [[n'|err]|]; try reflexivity;
    destruct (bool_decide _); try reflexivity.
  destruct n'; try reflexivity.
  destruct (fixFieldIndexes _ _); reflexivity.
Qed.

Lemma rewriteOther_countFilters (node n' : Node T) st :
  fst (rewriteOther node st) = Ok n' -> countFilters n' = countFilters node.
Proof.
  unfold rewriteOther.
  destruct node; simpl;
    repeat match goal with
      | |- context [bool_decide ?P] => destruct (bool_decide P); simpl
      | |- context [transformExpressionsUp ?f ?es] =>
          destruct (transformExpressionsUp f es); simpl
      | |- context [Expression_TransformUp ?f ?e] =>
          destruct (Expression_TransformUp f e); simpl
      | |- context [fixFieldIndexes ?s ?e] =>
          destruct (fixFieldIndexes s e); simpl
      end;
    intros Heq; try discriminate; injection Heq as <-; reflexivity.
Qed.

Lemma rewriteOther_predicates (node n' : Node T) st :
  (forall e c, node <> Filter e c) ->
  fst (rewriteOther node st) = Ok n' -> predicates n' = predicates node.
Proof.
  intros Hnf. unfold rewriteOther.
  destruct node; simpl;
    try (exfalso; eapply Hnf; reflexivity);
    repeat match goal with
      | |- context [bool_decide ?P] => destruct (bool_decide P); simpl
      | |- context [transformExpressionsUp ?f ?es] =>
          destruct (transformExpressionsUp f es); simpl
      | |- context [Expression_TransformUp ?f ?e] =>
          destruct (Expression_TransformUp f e); simpl
      | |- context [fixFieldIndexes ?s ?e] =>
          destruct (fixFieldIndexes s e); simpl
      end;
    intros Heq; try discriminate; injection Heq as <-; reflexivity.
Qed.

(** What the table case does to the captured variables and to the node. *)
Lemma rewriteTable_run (t : T) st r st' :
  rewriteTable fields filters assigned t st = (r, st') ->
  (forall n', r = Ok n' -> exists t', n' = ResolvedTable t') /\
  (isFilteredTable t = false -> handledFilters st' = handledFilters st) /\
  exists more,
    queryIndexes st' = queryIndexes st ++ more /\
    forall idx, idx ∈ more -> assignedTo assigned (TableName t) idx.
Proof.
  unfold rewriteTable, bind, pushFilters. intros Hrun.
  assert (Hstep : forall table st0 r st',
             (let (r0, st1) := pushProjection fields t table st0 in
              match r0 with
              | Ok a => bind (pushIndex assigned t a)
                          (fun x => ret (ResolvedTable x)) st1
              | Err err => (Err err, st1)
              end) = (r, st') ->
             (forall n', r = Ok n' -> exists t', n' = ResolvedTable t') /\
             handledFilters st' = handledFilters st0 /\
             exists more,
               queryIndexes st' = queryIndexes st0 ++ more /\
               forall idx, idx ∈ more -> assignedTo assigned (TableName t) idx).
  { clear. intros table st0 r st' Hrun.
    rewrite pushProjection_projected in Hrun. unfold bind, pushIndex, ret in Hrun.
    destruct (isIndexableTable (projected fields t table)).
    - destruct (assigned !! TableName t) as [l|] eqn:Hl;
        injection Hrun as <- <-.
      + split; [intros n' Hn'; injection Hn' as <-; eauto|].
        split; [reflexivity|]. exists (indexes l). split; [reflexivity|].
        intros idx Hin. exists l. split; assumption.
      + split; [intros n' Hn'; injection Hn' as <-; eauto|].
        split; [reflexivity|]. exists []. rewrite app_nil_r.
        split; [reflexivity|]. intros idx Hin. inversion Hin.
    - injection Hrun as <- <-.
      split; [intros n' Hn'; injection Hn' as <-; eauto|].
      split; [reflexivity|]. exists []. rewrite app_nil_r.
      split; [reflexivity|]. intros idx Hin. inversion Hin. }
  destruct (isFilteredTable t) eqn:Hft.
  - destruct (fixFieldIndexesOnExpressions _ _) as [fixed|err].
    + apply Hstep in Hrun as (Hnode & _ & Hmore).
      split; [exact Hnode|]. split; [discriminate | exact Hmore].
    + injection Hrun as <- <-. split; [discriminate|].
      split; [discriminate|]. exists []. rewrite app_nil_r.
      split; [reflexivity|]. intros idx Hin. inversion Hin.
  - apply Hstep in Hrun as (Hnode & Hhandled & Hmore).
    split; [exact Hnode|]. split; [intros _; exact Hhandled | exact Hmore].
Qed.

Lemma rewriteNode_state (node : Node T) st :
  (forall t, node <> ResolvedTable t) ->
  snd (rewriteNode fields filters assigned node st) = st.
Proof.
  intros Hnt. destruct node; try apply rewriteOther_state.
  - exfalso. eapply Hnt. reflexivity.
  - simpl. destruct (rewriteFilter_filterRewritten expression node st)
      as (n' & Hrun & _).
    rewrite Hrun. reflexivity.
Qed.

(** The equations of the traversal, one for each shape of node. *)
Lemma TransformUp_unary (f : Node T -> Rewrite (Node T))
    (mk : Node T -> Node T) (c : Node T) :
  (exists e, mk = Filter e) \/ (exists es, mk = Project es) \/
  (exists name es, mk = fun c => CreateIndex name c es) \/
  (exists rel, mk = fun c => Releaser c rel) ->
  TransformUp f (mk c) = bind (TransformUp f c) (fun child => f (mk child)).
Proof.
  intros [[e ->]|[[es ->]|[(name & es & ->)|[rel ->]]]]; reflexivity.
Qed.

Lemma TransformUp_binary (f : Node T -> Rewrite (Node T))
    (mk : Node T -> Node T -> Node T) (l r : Node T) :
  (exists cond, mk = fun l r => InnerJoin l r cond) \/ mk = InsertInto ->
  TransformUp f (mk l r) =
    bind (TransformUp f l)
      (fun left => bind (TransformUp f r) (fun right => f (mk left right))).
Proof. intros [[cond ->]| ->]; reflexivity. Qed.

End Traversal.

Section Traversed.

Context {T : Type} `{Table T}.
Variable fields : gmap string (list string).
Variable filters : gmap string (list Expression).
Variable assigned : gmap string indexLookup.

(** A node that is not a table node, its children rewritten already: the
    captured variables stay as they are, no filter node is added, and with
    nothing handled the predicates stay as they are. *)
Lemma rewriteNode_inner (node : Node T) st r st' :
  (forall t, node <> ResolvedTable t) ->
  rewriteNode fields filters assigned node st = (r, st') ->
  st' = st /\
  forall n', r = Ok n' ->
    countFilters n' <= countFilters node /\
    (handledFilters st = [] -> predicates n' = predicates node).
Proof.
  intros Hnt Hrun.
  pose proof (rewriteNode_state fields filters assigned node st Hnt) as Hst.
  rewrite Hrun in Hst. simpl in Hst. split; [exact Hst|].
  intros n' ->.
  assert (Hother : (forall e c, node <> Filter e c) ->
            countFilters n' <= countFilters node /\
            (handledFilters st = [] -> predicates n' = predicates node)).
  { intros Hnf.
    assert (Hro : fst (rewriteOther node st) = Ok n').
    { destruct node; simpl in Hrun; try (rewrite Hrun; reflexivity).
      - exfalso. eapply Hnt. reflexivity.
      - exfalso. eapply (Hnf expression node). reflexivity. }
    split.
    - rewrite (rewriteOther_countFilters node n' st Hro). lia.
    - intros _. apply (rewriteOther_predicates node n' st); [|exact Hro].
      exact Hnf. }
  destruct node as [t|name|e c|es c|l r' cond|l r'|name c es|c rel];
    try (apply Hother; discriminate).
  simpl in Hrun. unfold rewriteFilter in Hrun.
  destruct (handledFilters st) as [|h hs].
  - injection Hrun as <- _. split; [lia | reflexivity].
  - destruct (getUnhandledFilters _ _);
      injection Hrun as <- _; simpl; split; try lia; discriminate.
Qed.

Lemma traversed_table (t : T) st r st' :
  rewriteNode fields filters assigned (ResolvedTable t) st = (r, st') ->
  traversed assigned (ResolvedTable t) st r st'.
Proof.
  intros Hrun. simpl in Hrun.
  destruct (rewriteTable_run fields filters assigned t st r st' Hrun)
    as (Hnode & Hhandled & more & Hmore & Hfrom).
  split; [|split].
  - exists more. split; [exact Hmore|]. intros idx Hin.
    exists t. split; [apply list_elem_of_singleton; reflexivity | auto].
  - intros Hnone Hempty. split.
    + rewrite Hhandled, Hempty; [reflexivity|].
      apply Hnone. apply list_elem_of_singleton. reflexivity.
    + intros n' Hn'. destruct (Hnode n' Hn') as [t' ->]. reflexivity.
  - intros n' Hn'. destruct (Hnode n' Hn') as [t' ->]. simpl. lia.
Qed.

(** A node with one child: what the traversal of the child keeps, the
    traversal of the node keeps. *)
Lemma traversed_unary (mk : Node T -> Node T) (c : Node T) st r st' :
  (exists e, mk = Filter e) \/ (exists es, mk = Project es) \/
  (exists name es, mk = fun c => CreateIndex name c es) \/
  (exists rel, mk = fun c => Releaser c rel) ->
  (forall st r st',
      TransformUp (rewriteNode fields filters assigned) c st = (r, st') ->
      traversed assigned c st r st') ->
  TransformUp (rewriteNode fields filters assigned) (mk c) st = (r, st') ->
  traversed assigned (mk c) st r st'.
Proof.
  intros Hmk IH Hrun.
  rewrite (TransformUp_unary _ mk c Hmk) in Hrun. unfold bind in Hrun.
  destruct (TransformUp (rewriteNode fields filters assigned) c st)
    as [[child|err] st1] eqn:Hc.
  - destruct (IH _ _ _ Hc) as (Hmore & Hkeep & Hcount).
    assert (Htables : forall x, tables (mk x) = tables x).
    { intros x.
      destruct Hmk as [[e ->]|[[es ->]|[(name & es & ->)|[rel ->]]]];
        reflexivity. }
    assert (Hshape :
              countFilters (mk child) <= countFilters (mk c) /\
              (predicates child = predicates c ->
               predicates (mk child) = predicates (mk c))).
    { specialize (Hcount child eq_refl).
      destruct Hmk as [[e ->]|[[es ->]|[(name & es & ->)|[rel ->]]]];
        simpl; split; try lia; congruence. }
    destruct (rewriteNode_inner (mk child) st1 r st') as [-> Hn'];
      [ intros t;
        destruct Hmk as [[e ->]|[[es ->]|[(name & es & ->)|[rel ->]]]];
        discriminate
      | exact Hrun | ].
    split; [|split].
    + rewrite Htables. exact Hmore.
    + rewrite Htables. intros Hnone Hempty.
      destruct (Hkeep Hnone Hempty) as [Hempty1 Hpred]. split; [exact Hempty1|].
      intros n' Hr. destruct (Hn' n' Hr) as [_ Hp].
      rewrite (Hp Hempty1). apply Hshape. apply Hpred. reflexivity.
    + intros n' Hr. destruct (Hn' n' Hr) as [Hle _]. lia.
  - injection Hrun as <- <-.
    destruct (IH _ _ _ Hc) as (Hmore & Hkeep & Hcount).
    assert (Htables : tables (mk c) = tables c).
    { destruct Hmk as [[e ->]|[[es ->]|[(name & es & ->)|[rel ->]]]];
        reflexivity. }
    split; [|split].
    + rewrite Htables. exact Hmore.
    + rewrite Htables. intros Hnone Hempty.
      destruct (Hkeep Hnone Hempty) as [Hempty1 _]. split; [exact Hempty1|].
      discriminate.
    + discriminate.
Qed.

End Traversed.

Section Traversed2.

Context {T : Type} `{Table T}.
Variable fields : gmap string (list string).
Variable filters : gmap string (list Expression).
Variable assigned : gmap string indexLookup.

(** A node with two children, the left one traversed first. *)
Lemma traversed_binary (mk : Node T -> Node T -> Node T) (l r : Node T)
    st res st' :
  (exists cond, mk = fun l r => InnerJoin l r cond) \/ mk = InsertInto ->
  (forall st res st',
      TransformUp (rewriteNode fields filters assigned) l st = (res, st') ->
      traversed assigned l st res st') ->
  (forall st res st',
      TransformUp (rewriteNode fields filters assigned) r st = (res, st') ->
      traversed assigned r st res st') ->
  TransformUp (rewriteNode fields filters assigned) (mk l r) st = (res, st') ->
  traversed assigned (mk l r) st res st'.
Proof.
  intros Hmk IHl IHr Hrun.
  rewrite (TransformUp_binary _ mk l r Hmk) in Hrun. unfold bind in Hrun.
  assert (Htables : tables (mk l r) = tables l ++ tables r).
  { destruct Hmk as [[cond ->]| ->]; reflexivity. }
  assert (Hsplit : (forall t, t ∈ tables (mk l r) -> isFilteredTable t = false) ->
                   (forall t, t ∈ tables l -> isFilteredTable t = false) /\
                   (forall t, t ∈ tables r -> isFilteredTable t = false)).
  { rewrite Htables. intros Hnone.
    split; intros t Hin; apply Hnone; apply elem_of_app; auto. }
  destruct (TransformUp (rewriteNode fields filters assigned) l st)
    as [[left|err] st1] eqn:Hl.
  - destruct (IHl _ _ _ Hl) as ((ml & Hml & Hfl) & Hkl & Hcl).
    destruct (TransformUp (rewriteNode fields filters assigned) r st1)
      as [[right|err] st2] eqn:Hr.
    + destruct (IHr _ _ _ Hr) as ((mr & Hmr & Hfr) & Hkr & Hcr).
      destruct (rewriteNode_inner fields filters assigned
                  (mk left right) st2 res st') as [-> Hn'];
        [ intros t; destruct Hmk as [[cond ->]| ->]; discriminate
        | exact Hrun | ].
      split; [|split].
      * exists (ml ++ mr). split; [rewrite Hmr, Hml, app_assoc; reflexivity|].
        rewrite Htables. intros idx Hin.
        apply elem_of_app in Hin as [Hin|Hin].
        -- destruct (Hfl idx Hin) as (t & Ht & Ha). exists t.
           split; [apply elem_of_app; auto | exact Ha].
        -- destruct (Hfr idx Hin) as (t & Ht & Ha). exists t.
           split; [apply elem_of_app; auto | exact Ha].
      * intros Hnone Hempty. destruct (Hsplit Hnone) as [Hnl Hnr].
        destruct (Hkl Hnl Hempty) as [He1 Hpl].
        destruct (Hkr Hnr He1) as [He2 Hpr]. split; [exact He2|].
        intros n' Hres. destruct (Hn' n' Hres) as [_ Hp].
        rewrite (Hp He2).
        specialize (Hpl left eq_refl). specialize (Hpr right eq_refl).
        destruct Hmk as [[cond ->]| ->]; simpl; congruence.
      * intros n' Hres. destruct (Hn' n' Hres) as [Hle _].
        specialize (Hcl left eq_refl). specialize (Hcr right eq_refl).
        destruct Hmk as [[cond ->]| ->]; simpl in *; lia.
    + injection Hrun as <- <-.
      destruct (IHr _ _ _ Hr) as ((mr & Hmr & Hfr) & Hkr & Hcr).
      split; [|split].
      * exists (ml ++ mr). split; [rewrite Hmr, Hml, app_assoc; reflexivity|].
        rewrite Htables. intros idx Hin.
        apply elem_of_app in Hin as [Hin|Hin].
        -- destruct (Hfl idx Hin) as (t & Ht & Ha). exists t.
           split; [apply elem_of_app; auto | exact Ha].
        -- destruct (Hfr idx Hin) as (t & Ht & Ha). exists t.
           split; [apply elem_of_app; auto | exact Ha].
      * intros Hnone Hempty. destruct (Hsplit Hnone) as [Hnl Hnr].
        destruct (Hkl Hnl Hempty) as [He1 _].
        destruct (Hkr Hnr He1) as [He2 _]. split; [exact He2|discriminate].
      * discriminate.
  - injection Hrun as <- <-.
    destruct (IHl _ _ _ Hl) as ((ml & Hml & Hfl) & Hkl & Hcl).
    split; [|split].
    + exists ml. split; [exact Hml|]. rewrite Htables. intros idx Hin.
      destruct (Hfl idx Hin) as (t & Ht & Ha). exists t.
      split; [apply elem_of_app; auto | exact Ha].
    + intros Hnone Hempty. destruct (Hsplit Hnone) as [Hnl _].
      destruct (Hkl Hnl Hempty) as [He1 _]. split; [exact He1|discriminate].
    + discriminate.
Qed.

(** What every traversal keeps. *)
Lemma TransformUp_traversed (n : Node T) :
  forall st r st',
    TransformUp (rewriteNode fields filters assigned) n st = (r, st') ->
    traversed assigned n st r st'.
Proof.
  induction n as [t|name|e c IH|es c IH|l IHl r IHr cond|l IHl r IHr
                 |name c IH es|c IH rel]; intros st res st' Hrun.
  - apply (traversed_table fields filters). exact Hrun.
  - destruct (rewriteNode_inner fields filters assigned
                (UnresolvedTable name) st res st') as [-> Hn'];
      [discriminate | exact Hrun |].
    split; [|split].
    + exists []. rewrite app_nil_r. split; [reflexivity|].
      intros idx Hin. inversion Hin.
    + intros _ Hempty. split; [exact Hempty|].
      intros n' Hres. destruct (Hn' n' Hres) as [_ Hp]. exact (Hp Hempty).
    + intros n' Hres. destruct (Hn' n' Hres) as [Hle _]. exact Hle.
  - apply (traversed_unary fields filters assigned (Filter e)); eauto.
  - apply (traversed_unary fields filters assigned (Project es)); eauto.
  - apply (traversed_binary (fun l r => InnerJoin l r cond)); eauto.
  - apply (traversed_binary InsertInto); auto.
  - apply (traversed_unary fields filters assigned
             (fun c => CreateIndex name c es)); eauto 6.
  - apply (traversed_unary fields filters assigned
             (fun c => Releaser c rel)); eauto 6.
Qed.

End Traversed2.

(** X8. Every handle the rewrite records, whether it ends in a plan or in
    an error, is a handle the index assignment gives for a table of the
    plan: nothing else is ever released by the rule or handed to the
    releaser. *)
Theorem recorded_handles_are_assigned
    {T : Type} `{Table T}
    (n : Node T) (assigned : gmap string indexLookup)
    (r : result (Node T)) (st : pushdownState) (idx : Index) :
  transform n assigned = (r, st) ->
  idx ∈ queryIndexes st ->
  exists t, t ∈ tables n /\ assignedTo assigned (TableName t) idx.
Proof.
  unfold transform. cbv zeta. intros Hrun Hin.
  destruct (TransformUp_traversed _ _ assigned n _ _ _ Hrun)
    as ((more & Hmore & Hfrom) & _ & _).
  simpl in Hmore. rewrite Hmore in Hin. exact (Hfrom idx Hin).
Qed.

(** The failing rewrite of the scenario: the handle [idx2] is recorded, and
    it is assigned to the table [t] of the plan. *)
Lemma recorded_handles_are_assigned_witness :
  exists r st,
    transform Scenario.broken Scenario.assigned = (r, st) /\
    "idx2" ∈ queryIndexes st /\
    exists t, t ∈ tables Scenario.broken /\
              assignedTo Scenario.assigned (TableName t) "idx2".
Proof.
  do 2 eexists. split; [reflexivity|].
  assert (Hin : "idx2" ∈ ["idx1"; "idx2"]).
  { apply elem_of_cons. right. apply elem_of_cons. left. reflexivity. }
  split; [exact Hin|].
  eapply (recorded_handles_are_assigned Scenario.broken Scenario.assigned);
    [reflexivity | exact Hin].
Defined.

(** X9. The rule adds no filter node: the plan it answers has at most as
    many filter nodes as the plan it was given. *)
Theorem pushdown_adds_no_filter
    {T : Type} `{Table T}
    (a : Analyzer T) (n node : Node T) (events : list Event) :
  pushdown a n = (Ok node, events) ->
  countFilters node <= countFilters n.
Proof.
  unfold pushdown. intros Hrun.
  destruct (negb (Resolved n)); [injection Hrun as <- _; lia|].
  destruct (isInsertOrCreateIndex n); [injection Hrun as <- _; lia|].
  destruct (assignIndexes a n) as [assigned|]; [|discriminate].
  destruct (transform n assigned) as [[n'|] st] eqn:Htr; [|discriminate].
  unfold transform in Htr. cbv zeta in Htr.
  destruct (TransformUp_traversed _ _ assigned n _ _ _ Htr)
    as (_ & _ & Hcount).
  specialize (Hcount n' eq_refl).
  destruct (queryIndexes st); injection Hrun as <- _; simpl; lia.
Qed.

(** The filter of the scenario gives way to its join. *)
Lemma pushdown_adds_no_filter_witness :
  exists node events,
    pushdown Scenario.withIndexes Scenario.filtered = (Ok node, events) /\
    countFilters node <= countFilters Scenario.filtered.
Proof.
  do 2 eexists. split; [reflexivity|].
  eapply (pushdown_adds_no_filter Scenario.withIndexes Scenario.filtered).
  reflexivity.
Defined.



(** ** Further properties of the releaser *)

Module ConsumerFacts.

Import ReleaseIter Consumer.

(** One call, seen from the wrapped iterator: a [Next] is handed on and
    its answer handed back; a [Close] does not reach it. *)
Lemma call_child (c : Call) (i : releaseIter) (w : World) :
  let '(a, i', _) := call c i w in
  match c with
  | CallNext =>
      a = NextAnswer (fst (RowIter_Next (child i))) /\
      child i' = snd (RowIter_Next (child i))
  | CallClose => child i' = child i /\ exists err, a = CloseAnswer err
  end.
Proof.
  destruct i as [ch handles done]. destruct c; simpl.
  - unfold Next. simpl. destruct (RowIter_Next ch) as [[row|err] ch'] eqn:Hn;
      simpl; unfold once_Do; simpl; destruct done; simpl; auto.
  - unfold once_Do. simpl. destruct done; simpl; eauto.
Qed.

Lemma served_step (it : RowIter) (k : nat) :
  served (answers it) (S k) =
    fst (RowIter_Next it) :: served (answers (snd (RowIter_Next it))) k.
Proof.
  unfold RowIter_Next. simpl. destruct (answers it); reflexivity.
Qed.

End ConsumerFacts.

(** X11. The releasing row sequence is transparent: whatever calls the
    consumer makes, each [Next] is answered with what the wrapped iterator
    answers to its next call, rows and errors alike and also after a close,
    and the wrapped iterator sees one [Next] per [Next] of the consumer. *)
Theorem Next_answers_are_those_of_the_child
    (calls : list ReleaseIter.Call) (i : ReleaseIter.releaseIter)
    (w : ReleaseIter.World) :
  let '(got, i', _) := ReleaseIter.consume calls i w in
  Consumer.nextAnswers got =
    Consumer.served (ReleaseIter.answers (ReleaseIter.child i))
                    (Consumer.countNext calls) /\
  ReleaseIter.nextCalls (ReleaseIter.child i') =
    ReleaseIter.nextCalls (ReleaseIter.child i) + Consumer.countNext calls.
Proof.
  revert i w. induction calls as [|c rest IH]; intros i w.
  - simpl. split; [reflexivity | lia].
  - simpl ReleaseIter.consume.
    pose proof (ConsumerFacts.call_child c i w) as Hstep.
    destruct (ReleaseIter.call c i w) as [[a i1] w1].
    specialize (IH i1 w1).
    destruct (ReleaseIter.consume rest i1 w1) as [[got i2] w2].
    destruct IH as [IHgot IHcalls].
    destruct c.
    + destruct Hstep as [-> Hchild]. rewrite Hchild in IHgot, IHcalls.
      simpl Consumer.countNext. rewrite ConsumerFacts.served_step.
      split.
      * simpl. rewrite IHgot. reflexivity.
      * rewrite IHcalls. unfold ReleaseIter.RowIter_Next.
        destruct (ReleaseIter.answers (ReleaseIter.child i)); simpl; lia.
    + destruct Hstep as [Hchild [err ->]]. rewrite Hchild in IHgot, IHcalls.
      simpl Consumer.countNext. split; [exact IHgot | exact IHcalls].
Qed.

Module NestedFacts.

Import ReleaseIter Nested.

Lemma closes_released (k : nat) :
  forall (o : outerIter) (w : World),
    let '(o', w') := closes k o w in
    inner o' = inner o /\
    outerRelease o' = outerRelease o /\
    released w' =
      released w ++
      (if outerOnce o then []
       else match k with 0 => [] | S _ => outerRelease o end).
Proof.
  induction k as [|k IH]; intros o w; simpl.
  - destruct (outerOnce o); rewrite app_nil_r; auto.
  - unfold outerClose, outer_once_Do.
    destruct o as [i handles done]. simpl. destruct done.
    + specialize (IH (mkOuterIter i handles true) w).
      destruct (closes k _ w) as [o' w']. exact IH.
    + specialize (IH (mkOuterIter i handles true) (Release handles w)).
      destruct (closes k _ (Release handles w)) as [o' w'].
      simpl in IH. rewrite app_nil_r in IH. exact IH.
Qed.

End NestedFacts.

(** X12. A releaser over a releaser: closing the row sequence, however
    often, releases the handles of the outer releaser once and leaves those
    of the inner releaser unreleased, its [sync.Once] not run; a [Next]
    that fails releases the handles of the inner releaser and then those of
    the outer one, and a [Next] that answers a row releases nothing. *)
Theorem nested_releaser_close_keeps_inner_handles
    (it : ReleaseIter.RowIter) (innerHandles outerHandles : list Index)
    (w : ReleaseIter.World) (k : nat) :
  (let '(o', w') :=
     Nested.closes (S k) (Nested.fresh it innerHandles outerHandles) w in
   ReleaseIter.released w' = ReleaseIter.released w ++ outerHandles /\
   ReleaseIter.once (Nested.inner o') = false) /\
  (let '(r, _, w') :=
     Nested.outerNext (Nested.fresh it innerHandles outerHandles) w in
   match r with
   | Err _ =>
       ReleaseIter.released w' =
         ReleaseIter.released w ++ innerHandles ++ outerHandles
   | Ok _ => ReleaseIter.released w' = ReleaseIter.released w
   end).
Proof.
  split.
  - pose proof (NestedFacts.closes_released (S k)
                  (Nested.fresh it innerHandles outerHandles) w) as Hc.
    destruct (Nested.closes (S k) _ w) as [o' w'].
    destruct Hc as (Hinner & _ & Hrel). rewrite Hinner. split; [exact Hrel|].
    reflexivity.
  - unfold Nested.outerNext, Nested.fresh, ReleaseIter.Next. simpl.
    unfold ReleaseIter.RowIter_Next.
    destruct (ReleaseIter.answers it) as [|[row|err] rest]; simpl;
      rewrite <- ?app_assoc; reflexivity.
Qed.

(** The rule on a plan it has wrapped before wraps it again, around the
    releaser that is there. *)
Example pushdown_wraps_again :
  exists t' u' cond,
    pushdown Scenario.withIndexes (Releaser Scenario.join ["old"]) =
      (Ok (Releaser
             (Releaser (InnerJoin (ResolvedTable t') (ResolvedTable u') cond)
                       ["old"])
             ["idx1"; "idx2"]),
       [AssignIndexes]).
Proof. do 3 eexists. reflexivity. Qed.

(** ** Properties of the registry of regular-expression engines *)

Module RegexFacts.

Import Regex.

Lemma Register_entries (name : string) (c : Constructor) (st : State) :
  entries (snd (Regex.Register name c st)) =
    (if bool_decide (name = "") then entries st
     else match entries st !! name with
          | Some _ => entries st
          | None => <[ name := c ]> (entries st)
          end) /\
  defaultEngine (snd (Regex.Register name c st)) = defaultEngine st.
Proof.
  unfold Regex.Register.
  change (entries (mkRegistry (Some (entries st)) (defaultEngine st)))
    with (entries st).
  destruct (bool_decide (name = "")); [split; reflexivity|].
  destruct (entries st !! name); split; reflexivity.
Qed.

Lemma run_cons (op : Op) (ops : list Op) (st : State) :
  run (op :: ops) st = run ops (step st op).
Proof. reflexivity. Qed.

(** The map after a run: a name that is registered stays as it is; a name
    that is not is registered by the first call that registers it, unless it
    is the empty name. *)
Lemma run_entries (ops : list Op) :
  forall (st : State) (name : string),
    entries (run ops st) !! name =
      match entries st !! name with
      | Some c => Some c
      | None =>
          if bool_decide (name = "") then None else firstRegistered name ops
      end.
Proof.
  induction ops as [|op rest IH]; intros st name.
  - simpl. destruct (entries st !! name); [reflexivity|].
    destruct (bool_decide (name = "")); reflexivity.
  - rewrite run_cons, IH. destruct op as [n c|n]; simpl.
    + destruct (Register_entries n c st) as [-> _].
      destruct (decide (n = "")) as [->|Hn].
      * rewrite bool_decide_eq_true_2 by reflexivity.
        destruct (entries st !! name); [reflexivity|].
        destruct (decide (name = "")) as [->|Hname].
        -- rewrite bool_decide_eq_true_2 by reflexivity. reflexivity.
        -- rewrite (bool_decide_eq_false_2 (name = "")) by exact Hname.
           rewrite bool_decide_eq_false_2 by congruence. reflexivity.
      * rewrite bool_decide_eq_false_2 by exact Hn.
        destruct (decide (n = name)) as [->|Hne].
        -- rewrite (bool_decide_eq_true_2 (name = name)) by reflexivity.
           rewrite (bool_decide_eq_false_2 (name = "")) by exact Hn.
           destruct (entries st !! name) as [c0|] eqn:Hl.
           ++ rewrite Hl. reflexivity.
           ++ rewrite lookup_insert_eq. reflexivity.
        -- rewrite (bool_decide_eq_false_2 (n = name)) by exact Hne.
           destruct (entries st !! n).
           ++ reflexivity.
           ++ rewrite lookup_insert_ne by exact Hne. reflexivity.
    + reflexivity.
Qed.

Lemma run_defaultEngine (ops : list Op) :
  forall st, defaultEngine (run ops st) = lastDefault (defaultEngine st) ops.
Proof.
  induction ops as [|op rest IH]; intros st.
  - reflexivity.
  - rewrite run_cons, IH. destruct op as [n c|n]; simpl.
    + destruct (Register_entries n c st) as [_ ->]. reflexivity.
    + reflexivity.
Qed.

Lemma firstRegistered_is_Some (name : string) (ops : list Op) :
  is_Some (firstRegistered name ops) <-> exists c, OpRegister name c ∈ ops.
Proof.
  induction ops as [|op rest IH]; simpl.
  - split; [intros [c Hc]; discriminate | intros [c Hc]; inversion Hc].
  - destruct op as [n c|n].
    + destruct (decide (n = name)) as [->|Hne].
      * rewrite bool_decide_eq_true_2 by reflexivity. split; [|eauto].
        intros _. exists c. apply elem_of_cons. left. reflexivity.
      * rewrite bool_decide_eq_false_2 by exact Hne. rewrite IH.
        split; intros [c' Hc'].
        -- exists c'. apply elem_of_cons. right. exact Hc'.
        -- apply elem_of_cons in Hc' as [Heq|Hc']; [congruence | eauto].
    + rewrite IH. split; intros [c' Hc'].
      * exists c'. apply elem_of_cons. right. exact Hc'.
      * apply elem_of_cons in Hc' as [Heq|Hc']; [discriminate | eauto].
Qed.

Lemma Engines_elem (st : State) (name : string) :
  name ∈ Engines st <-> is_Some (entries st !! name).
Proof.
  unfold Engines. rewrite list_elem_of_fmap. split.
  - intros ([n c] & -> & Hin). apply elem_of_map_to_list in Hin.
    exists c. exact Hin.
  - intros [c Hc]. exists (name, c). split; [reflexivity|].
    apply elem_of_map_to_list. exact Hc.
Qed.

End RegexFacts.

(** X13. After any run of registrations and default settings from any
    state of the registry, [New] builds the matcher of a name with the
    constructor the name had before the run, if it had one, and otherwise
    with the constructor of the first registration of the name in the run:
    a registered engine is never replaced or removed, later registrations
    of the name are without effect, and the empty name is never
    registered. *)
Theorem New_uses_the_first_registration
    (ops : list Regex.Op) (st : Regex.State) (name re : string) :
  Regex.New name re (Regex.run ops st) =
    match Regex.entries st !! name with
    | Some c => c re
    | None =>
        match (if bool_decide (name = "") then None
               else Regex.firstRegistered name ops) with
        | Some c => c re
        | None => inr (Regex.ErrRegexNotFound name)
        end
    end.
Proof.
  unfold Regex.New. rewrite RegexFacts.run_entries.
  destruct (Regex.entries st !! name); reflexivity.
Qed.

(** X14. [Register] answers the error of the empty name, or of a name that
    is taken, exactly when it leaves the registered engines as they are;
    when it answers no error the name is new and not empty, and from then
    on [New] uses the constructor for that name and what it did for every
    other name. *)
Theorem Register_rejects_or_adds
    (name : string) (c : Regex.Constructor) (st : Regex.State) :
  let '(err, st') := Regex.Register name c st in
  match err with
  | Some e =>
      e = (if bool_decide (name = "") then Regex.ErrRegexNameEmpty
           else Regex.ErrRegexAlreadyRegistered name) /\
      (name = "" \/ is_Some (Regex.entries st !! name)) /\
      forall other re, Regex.New other re st' = Regex.New other re st
  | None =>
      name <> "" /\ Regex.entries st !! name = None /\
      forall other re,
        Regex.New other re st' =
          if bool_decide (other = name) then c re else Regex.New other re st
  end.
Proof.
  unfold Regex.Register.
  change (Regex.entries
            (Regex.mkRegistry (Some (Regex.entries st))
                              (Regex.defaultEngine st)))
    with (Regex.entries st).
  destruct (decide (name = "")) as [->|Hname].
  - rewrite bool_decide_eq_true_2 by reflexivity.
    split; [reflexivity|]. split; [left; reflexivity|]. reflexivity.
  - rewrite bool_decide_eq_false_2 by exact Hname.
    destruct (Regex.entries st !! name) as [c0|] eqn:Hl.
    + split; [reflexivity|]. split; [right; eauto | reflexivity].
    + split; [exact Hname|]. split; [reflexivity|].
      intros other re. unfold Regex.New.
      change (Regex.entries
                (Regex.mkRegistry (Some (<[name:=c]> (Regex.entries st)))
                                  (Regex.defaultEngine st)))
        with (<[name:=c]> (Regex.entries st)).
      destruct (decide (other = name)) as [->|Hne].
      * rewrite bool_decide_eq_true_2 by reflexivity.
        rewrite lookup_insert_eq. reflexivity.
      * rewrite bool_decide_eq_false_2 by exact Hne.
        rewrite lookup_insert_ne by congruence. reflexivity.
Qed.

(** X15. After any run from the initial state [Engines] lists, each once,
    exactly the names that are not empty and that some call of the run
    registers; [New] finds a constructor for exactly those names. *)
Theorem Engines_are_the_registered_names
    (ops : list Regex.Op) (name : string) :
  NoDup (Regex.Engines (Regex.run ops Regex.initial)) /\
  (name ∈ Regex.Engines (Regex.run ops Regex.initial) <->
   name <> "" /\ exists c, Regex.OpRegister name c ∈ ops) /\
  (name ∈ Regex.Engines (Regex.run ops Regex.initial) <->
   is_Some (Regex.entries (Regex.run ops Regex.initial) !! name)).
Proof.
  split; [apply NoDup_fst_map_to_list|]. split; [|apply RegexFacts.Engines_elem].
  rewrite RegexFacts.Engines_elem, RegexFacts.run_entries.
  change (Regex.entries Regex.initial)
    with (∅ : gmap string Regex.Constructor).
  rewrite lookup_empty.
  destruct (decide (name = "")) as [->|Hname].
  - rewrite bool_decide_eq_true_2 by reflexivity. split.
    + intros [c Hc]. discriminate.
    + intros [Hne _]. contradiction.
  - rewrite bool_decide_eq_false_2 by exact Hname.
    rewrite RegexFacts.firstRegistered_is_Some. tauto.
Qed.

(** X16. After any run from the initial state [Default] answers the name
    of the last call of [SetDefault] when that name is not empty, whether
    an engine of that name is registered or not; otherwise it answers
    "oniguruma" when the run registers it, and "go" when not.  In no state
    of the registry is the answer the empty name. *)
Theorem Default_after_run (ops : list Regex.Op) :
  Regex.Default (Regex.run ops Regex.initial) =
    (if bool_decide (Regex.lastDefault "" ops <> "")
     then Regex.lastDefault "" ops
     else match Regex.firstRegistered "oniguruma" ops with
          | Some _ => "oniguruma"
          | None => "go"
          end) /\
  forall st, Regex.Default st <> "".
Proof.
  split.
  - unfold Regex.Default.
    rewrite RegexFacts.run_defaultEngine, RegexFacts.run_entries.
    change (Regex.entries Regex.initial)
      with (∅ : gmap string Regex.Constructor).
    change (Regex.defaultEngine Regex.initial) with "".
    rewrite lookup_empty.
    rewrite (bool_decide_eq_false_2 ("oniguruma" = "")) by discriminate.
    destruct (bool_decide (Regex.lastDefault "" ops <> "")); [reflexivity|].
    destruct (Regex.firstRegistered "oniguruma" ops); reflexivity.
  - intros st. unfold Regex.Default.
    destruct (decide (Regex.defaultEngine st <> "")) as [Hd|Hd].
    + rewrite bool_decide_eq_true_2 by exact Hd. exact Hd.
    + rewrite bool_decide_eq_false_2 by exact Hd.
      destruct (Regex.entries st !! "oniguruma"); discriminate.
Qed.

(** A default that names no registered engine: [Default] answers it and
    [New] rejects it. *)
Example Default_may_be_unregistered :
  let st := Regex.run [Regex.OpSetDefault "pcre"] Regex.initial in
  Regex.Default st = "pcre" /\
  Regex.New "pcre" "a+" st = inr (Regex.ErrRegexNotFound "pcre").
Proof. split; reflexivity. Qed.

(** ** Further properties of the default case *)

Lemma fieldRefs_eraseIndexes e : fieldRefs (eraseIndexes e) = fieldRefs e.
Proof.
  induction e; try reflexivity.
  - rewrite (eraseIndexes_binary And), !(fieldRefs_binary And); auto. congruence.
  - rewrite (eraseIndexes_binary Or), !(fieldRefs_binary Or); auto. congruence.
  - simpl eraseIndexes. rewrite !fieldRefs_Not. exact IHe.
  - rewrite (eraseIndexes_binary Equals), !(fieldRefs_binary Equals); auto.
    congruence.
  - rewrite (eraseIndexes_binary GreaterThan), !(fieldRefs_binary GreaterThan);
      auto 6.
    congruence.
Qed.

Lemma fixOverSchemas_keeps_shape schemas e e' :
  fixOverSchemas schemas e = Ok e' -> eraseIndexes e' = eraseIndexes e.
Proof.
  rewrite fixOverSchemas_firstFixed. intros Heq. injection Heq as <-.
  induction schemas as [|schema rest IH]; simpl.
  - reflexivity.
  - destruct (fixFieldIndexes schema e) as [fixed|err] eqn:Hf.
    + simpl. exact (fixFieldIndexes_keeps_shape schema e fixed Hf).
    + exact IH.
Qed.

(** A bottom-up transform with a function that changes indexes only
    changes indexes only. *)
Lemma Expression_TransformUp_keeps_shape
    (f : Expression -> result Expression) :
  (forall x y, f x = Ok y -> eraseIndexes y = eraseIndexes x) ->
  forall e e', Expression_TransformUp f e = Ok e' ->
               eraseIndexes e' = eraseIndexes e.
Proof.
  intros Hf.
  assert (Hbin : forall (mk : Expression -> Expression -> Expression) l r e',
             mk = And \/ mk = Or \/ mk = Equals \/ mk = GreaterThan ->
             (forall l', Expression_TransformUp f l = Ok l' ->
                         eraseIndexes l' = eraseIndexes l) ->
             (forall r', Expression_TransformUp f r = Ok r' ->
                         eraseIndexes r' = eraseIndexes r) ->
             match Expression_TransformUp f l with
             | Err err => Err err
             | Ok l' =>
                 match Expression_TransformUp f r with
                 | Err err => Err err
                 | Ok r' => f (mk l' r')
                 end
             end = Ok e' ->
             eraseIndexes e' = eraseIndexes (mk l r)).
  { intros mk l r e' Hmk IHl IHr Hrun.
    destruct (Expression_TransformUp f l) as [l'|]; [|discriminate].
    destruct (Expression_TransformUp f r) as [r'|]; [|discriminate].
    rewrite (Hf _ _ Hrun), !(eraseIndexes_binary mk) by exact Hmk.
    rewrite (IHl l' eq_refl), (IHr r' eq_refl). reflexivity. }
  induction e as [i ty t n nl|v ty|l IHl r IHr|l IHl r IHr|c IHc
                 |l IHl r IHr|l IHl r IHr]; intros e' Hrun.
  - exact (Hf _ _ Hrun).
  - exact (Hf _ _ Hrun).
  - apply (Hbin And l r e'); auto.
  - apply (Hbin Or l r e'); auto.
  - simpl in Hrun.
    destruct (Expression_TransformUp f c) as [c'|]; [|discriminate].
    rewrite (Hf _ _ Hrun). simpl. rewrite (IHc c' eq_refl). reflexivity.
  - apply (Hbin Equals l r e'); auto.
  - apply (Hbin GreaterThan l r e'); auto 6.
Qed.

(** The search over the child schemas never fails, and so neither does the
    transform of an expression with it. *)
Lemma Expression_TransformUp_fixOverSchemas schemas e :
  exists e', Expression_TransformUp (fixOverSchemas schemas) e = Ok e'.
Proof.
  assert (Hf : forall x, exists y, fixOverSchemas schemas x = Ok y).
  { intros x. rewrite fixOverSchemas_firstFixed. eauto. }
  induction e as [i ty t n nl|v ty|l IHl r IHr|l IHl r IHr|c IHc
                 |l IHl r IHr|l IHl r IHr]; simpl;
    try apply Hf;
    try (destruct IHl as [l' ->]; destruct IHr as [r' ->]; apply Hf).
  destruct IHc as [c' ->]. apply Hf.
Qed.

(** The default case at an inner join, step by step. *)
Lemma rewriteNode_InnerJoin
    {T : Type} `{Table T}
    (fields : gmap string (list string))
    (filters : gmap string (list Expression))
    (assigned : gmap string indexLookup)
    (l r : Node T) (cond : Expression) (st : pushdownState) :
  rewriteNode fields filters assigned (InnerJoin l r cond) st =
    match Expression_TransformUp
            (fixOverSchemas [NodeSchema l; NodeSchema r]) cond with
    | Err err => (Err err, st)
    | Ok cond1 =>
        match fixFieldIndexes (NodeSchema l ++ NodeSchema r) cond1 with
        | Err err => (Err err, st)
        | Ok cond' => (Ok (InnerJoin l r cond'), st)
        end
    end.
Proof.
  unfold rewriteNode, rewriteOther, TransformExpressions, Children.
  cbn [map length NodeSchema].
  rewrite bool_decide_eq_false_2 by lia.
  destruct (Expression_TransformUp _ cond); reflexivity.
Qed.

(** X17. At an inner join whose children are rewritten already, the rule
    keeps the children and changes the condition in its indexes only.  It
    answers the join when every field reference of the condition names a
    column of the join's own schema, and the indexes are then positions of
    those columns in that schema; it answers a field-missing error when
    some reference names none.  The captured variables stay as they
    are. *)
Theorem inner_join_condition_fixed_on_own_schema
    {T : Type} `{Table T}
    (fields : gmap string (list string))
    (filters : gmap string (list Expression))
    (assigned : gmap string indexLookup)
    (l r : Node T) (cond : Expression) (st : pushdownState) :
  let schema := NodeSchema l ++ NodeSchema r in
  match rewriteNode fields filters assigned (InnerJoin l r cond) st with
  | (Ok node, st') =>
      st' = st /\
      ~ missing schema cond /\
      exists cond',
        node = InnerJoin l r cond' /\
        eraseIndexes cond' = eraseIndexes cond /\
        wellIndexed schema cond'
  | (Err err, st') =>
      st' = st /\ missing schema cond /\ exists n, err = ErrFieldMissing n
  end.
Proof.
  intros schema. rewrite rewriteNode_InnerJoin.
  destruct (Expression_TransformUp_fixOverSchemas
              [NodeSchema l; NodeSchema r] cond) as [cond1 Hcond1].
  rewrite Hcond1.
  assert (Hshape : eraseIndexes cond1 = eraseIndexes cond).
  { apply (Expression_TransformUp_keeps_shape
             (fixOverSchemas [NodeSchema l; NodeSchema r])); [|exact Hcond1].
    intros x y. apply fixOverSchemas_keeps_shape. }
  assert (Hmiss : missing schema cond1 <-> missing schema cond).
  { unfold missing.
    rewrite <- (fieldRefs_eraseIndexes cond1), Hshape, fieldRefs_eraseIndexes.
    reflexivity. }
  pose proof (fixupSound_all schema cond1) as Hsound.
  unfold fixupSound in Hsound. fold schema.
  destruct (fixFieldIndexes schema cond1) as [cond'|err] eqn:Hfix.
  - destruct Hsound as [_ Hno]. split; [reflexivity|].
    split; [rewrite <- Hmiss; exact Hno|].
    exists cond'. split; [reflexivity|]. split.
    + rewrite (fixFieldIndexes_keeps_shape schema cond1 cond' Hfix).
      exact Hshape.
    + eapply fixFieldIndexes_wellIndexed. exact Hfix.
  - destruct Hsound as [Hyes Herr]. split; [reflexivity|].
    split; [apply Hmiss; exact Hyes | exact Herr].
Qed.

(** The rule rewrites beneath a releaser that is in the plan already
    and keeps the releaser with its release callback around the rewritten
    child; the error of the child, if any, is the error of the node. *)
Theorem releaser_is_kept_by_the_rewrite
    {T : Type} `{Table T}
    (fields : gmap string (list string))
    (filters : gmap string (list Expression))
    (assigned : gmap string indexLookup)
    (c : Node T) (handles : list Index) (st : pushdownState) :
  TransformUp (rewriteNode fields filters assigned) (Releaser c handles) st =
    match TransformUp (rewriteNode fields filters assigned) c st with
    | (Ok child, st') => (Ok (Releaser child handles), st')
    | (Err err, st') => (Err err, st')
    end.
Proof.
  rewrite (TransformUp_unary _ (fun c => Releaser c handles)).
  - unfold bind.
    destruct (TransformUp (rewriteNode fields filters assigned) c st)
      as [[child|err] st']; reflexivity.
  - right. right. right. exists handles. reflexivity.
Qed.

(** ** The owned expressions of a node in the default case *)

Lemma fixOverSchemas_firstFixedOr schemas e :
  fixOverSchemas schemas e = Ok (firstFixedOr schemas e).
Proof.
  rewrite fixOverSchemas_firstFixed. unfold firstFixedOr.
  destruct (firstFixed schemas e); reflexivity.
Qed.

Lemma Expression_TransformUp_searchedUp schemas e :
  Expression_TransformUp (fixOverSchemas schemas) e
    = Ok (searchedUp schemas e).
Proof.
  induction e as [i ty t n nl|v ty|l IHl r IHr|l IHl r IHr|c IHc
                 |l IHl r IHr|l IHl r IHr]; simpl;
    rewrite ?IHl, ?IHr, ?IHc; apply fixOverSchemas_firstFixedOr.
Qed.

Lemma transformExpressionsUp_searchedUp schemas es :
  transformExpressionsUp (fixOverSchemas schemas) es
    = Ok (map (searchedUp schemas) es).
Proof.
  induction es as [|e rest IH]; simpl.
  - reflexivity.
  - rewrite Expression_TransformUp_searchedUp, IH. reflexivity.
Qed.

Lemma searchedUp_keeps_shape schemas e :
  eraseIndexes (searchedUp schemas e) = eraseIndexes e.
Proof.
  apply (Expression_TransformUp_keeps_shape (fixOverSchemas schemas)).
  - intros x y. apply fixOverSchemas_keeps_shape.
  - apply Expression_TransformUp_searchedUp.
Qed.

(** The projection of [p.b = t.x] over the table [p]: the comparison
    resolves against no schema and is kept, the reference to [p.b] beneath
    it resolves and gets its index, the reference to [t.x] does not and
    keeps its own; the rule answers the plan. *)
Example exhausted_schemas_beneath :
  let stale := Equals (GetField 5 Int64 "p" "b" false)
                      (GetField 7 Int64 "t" "x" false) in
  isErr (fixFieldIndexes [Scenario.p_b] stale) = true /\
  pushdown Scenario.noIndexes (Project [stale] (ResolvedTable Scenario.p)) =
    (Ok (Project [Equals (GetField 0 Int64 "p" "b" false)
                         (GetField 7 Int64 "t" "x" false)]
                 (ResolvedTable Scenario.p)),
     [AssignIndexes]).
Proof. split; reflexivity. Qed.

(** C2, amended. During the bottom-up rewrite of an expression-bearing
    node with children, other than a filter and a base table, each owned
    expression is transformed bottom-up: every sub-expression, its own
    children done, is fixed up against the schema of each child in order;
    the result of the first schema for which the fixup succeeds replaces it,
    a field-missing failure of one schema advances to the next, and when
    every schema fails the sub-expression is kept as it is at that point and
    no error is raised.  The step therefore never aborts the pass, leaves
    the captured variables alone and changes indexes only.  An inner join
    then fixes its condition once more against its own schema, and the
    error of that fixup, if any, is the error of the node. *)
Theorem owned_expressions_searched_bottom_up
    {T : Type} `{Table T}
    (fields : gmap string (list string))
    (filters : gmap string (list Expression))
    (assigned : gmap string indexLookup)
    (st : pushdownState) :
  (forall es c,
      rewriteNode fields filters assigned (Project es c) st =
        (Ok (Project (map (searchedUp [NodeSchema c]) es) c), st)) /\
  (forall name c es,
      rewriteNode fields filters assigned (CreateIndex name c es) st =
        (Ok (CreateIndex name c (map (searchedUp [NodeSchema c]) es)), st)) /\
  (forall l r cond,
      rewriteNode fields filters assigned (InnerJoin l r cond) st =
        match fixFieldIndexes (NodeSchema l ++ NodeSchema r)
                (searchedUp [NodeSchema l; NodeSchema r] cond) with
        | Ok cond' => (Ok (InnerJoin l r cond'), st)
        | Err err => (Err err, st)
        end) /\
  (forall schemas e,
      fixOverSchemas schemas e = Ok (firstFixedOr schemas e) /\
      eraseIndexes (searchedUp schemas e) = eraseIndexes e).
Proof.
  split; [|split; [|split]].
  - intros es c.
    unfold rewriteNode, rewriteOther, TransformExpressions, Children.
    cbn [map length].
    rewrite bool_decide_eq_false_2 by lia.
    rewrite transformExpressionsUp_searchedUp. reflexivity.
  - intros name c es.
    unfold rewriteNode, rewriteOther, TransformExpressions, Children.
    cbn [map length].
    rewrite bool_decide_eq_false_2 by lia.
    rewrite transformExpressionsUp_searchedUp. reflexivity.
  - intros l r cond. rewrite rewriteNode_InnerJoin.
    rewrite Expression_TransformUp_searchedUp.
    destruct (fixFieldIndexes _ _); reflexivity.
  - intros schemas e. split.
    + apply fixOverSchemas_firstFixedOr.
    + apply searchedUp_keeps_shape.
Qed.

(** ** The filter case when nothing is handled *)

(** C4, as stated, fails: with nothing recorded as handled the filter of
    predicate [a AND (b AND c)] is answered untouched, and its predicate is
    not the three conjuncts that are left joined again. *)
Lemma untouched_filter_is_not_rejoined :
  let a := Equals Scenario.ref_p_b Scenario.one in
  let b := Equals Scenario.ref_p_b Scenario.two in
  let c := GreaterThan Scenario.ref_p_b Scenario.one in
  let e := And a (And b c) in
  let child : Node memTable := ResolvedTable Scenario.p in
  let st := mkState [] [] in
  getUnhandledFilters (splitExpression e) (handledFilters st) = [a; b; c] /\
  rewriteNode Scenario.fields Scenario.filters Scenario.assigned
    (Filter e child) st = (Ok (Filter e child), st) /\
  JoinAnd a [b; c] = And (And a b) c /\
  Filter e child <> Filter (JoinAnd a [b; c]) child.
Proof.
  cbv zeta. split; [reflexivity|]. split; [reflexivity|].
  split; [reflexivity|]. discriminate.
Qed.

(** However conjuncts are joined again, one of the two nestings of three
    conjuncts is not what the joining gives: both split into the same
    conjuncts. *)
Example no_joining_gives_both_nestings
    (join : list Expression -> Expression) (a b c : Expression) :
  notAnd a -> notAnd b -> notAnd c ->
  splitExpression (And a (And b c)) = splitExpression (And (And a b) c) /\
  ~ (join [a; b; c] = And a (And b c) /\ join [a; b; c] = And (And a b) c).
Proof.
  intros Ha Hb Hc. split.
  - simpl. rewrite !(splitExpression_atom a Ha), !(splitExpression_atom b Hb),
      !(splitExpression_atom c Hc). reflexivity.
  - intros [H1 H2]. rewrite H1 in H2. injection H2 as Habc _.
    clear -Habc. revert b Habc.
    induction a as [| |l IHl r IHr| | | |]; intros b Habc; try discriminate.
    injection Habc as Hl _. exact (IHl r Hl).
Qed.
